(** * Merkle-enabled blockchain ledger (main.go): a shallow embedding

    The Go program keeps an in-memory chain of blocks.  Every block stores a
    batch of transaction strings, the Merkle root of the batch, the hash of
    its predecessor, a nonce found by a proof-of-work search and its own
    hash.  This file embeds the hashing helpers ([CreateMerkleRoot],
    [CreateHash]), the nonce search ([FindValidNonce]) and the ledger
    operations ([NewBlock], [ChangeBlock], [VerifyChain]) and proves the
    properties the specification states about them.

    Go strings are byte strings: they are modelled by [string] (a list of
    8-bit [ascii] characters).  Go's [int] is the 64-bit two's-complement
    integer, modelled by [Z] with the wrap-around written out. *)

From Stdlib Require Import ZArith String Ascii List Lia Bool.
From Stdlib Require DecimalString.
From stdpp Require Import base list strings.
From Equations Require Import Equations.
Import ListNotations.

Local Open Scope string_scope.
Local Open Scope list_scope.
Local Open Scope Z_scope.

(** ** crypto/sha256: SHA-256 (FIPS 180-4) on byte strings *)

Module SHA256.

(** 32-bit words are integers in [0, 2^32). *)
Definition mask32 : Z := 0xFFFFFFFF.
Definition wrap32 (x : Z) : Z := Z.land x mask32.
Definition add32 (x y : Z) : Z := wrap32 (x + y).
Definition not32 (x : Z) : Z := Z.lxor x mask32.
Definition shr (n x : Z) : Z := Z.shiftr x n.
Definition rotr (n x : Z) : Z :=
  Z.lor (Z.shiftr x n) (wrap32 (Z.shiftl x (32 - n))).

Definition xor3 (x y z : Z) : Z := Z.lxor (Z.lxor x y) z.

Definition Ch (x y z : Z) : Z := Z.lxor (Z.land x y) (Z.land (not32 x) z).
Definition Maj (x y z : Z) : Z := xor3 (Z.land x y) (Z.land x z) (Z.land y z).
Definition bsig0 (x : Z) : Z := xor3 (rotr 2 x) (rotr 13 x) (rotr 22 x).
Definition bsig1 (x : Z) : Z := xor3 (rotr 6 x) (rotr 11 x) (rotr 25 x).
Definition ssig0 (x : Z) : Z := xor3 (rotr 7 x) (rotr 18 x) (shr 3 x).
Definition ssig1 (x : Z) : Z := xor3 (rotr 17 x) (rotr 19 x) (shr 10 x).

(** Hexadecimal digits, used for the constant tables and for the [%x]
    rendering of a digest. *)
Definition hex_value (c : ascii) : Z :=
  let n := Z.of_N (N_of_ascii c) in
  if (48 <=? n) && (n <=? 57) then n - 48
  else if (97 <=? n) && (n <=? 102) then n - 87
  else 0.

(** Reads a table of blank-separated hexadecimal words. *)
Fixpoint hex_words (acc : option Z) (s : string) : list Z :=
  match s with
  | EmptyString => match acc with Some w => [w] | None => [] end
  | String c rest =>
      if Ascii.eqb c " "%char
      then match acc with
           | Some w => w :: hex_words None rest
           | None => hex_words None rest
           end
      else hex_words (Some (16 * default 0 acc + hex_value c)) rest
  end.

(** Initial hash value (FIPS 180-4, 5.3.3). *)
Definition H0 : list Z := Eval vm_compute in
  hex_words None
    "6a09e667 bb67ae85 3c6ef372 a54ff53a 510e527f 9b05688c 1f83d9ab 5be0cd19".

(** Round constants (FIPS 180-4, 4.2.2). *)
Definition K : list Z := Eval vm_compute in
  hex_words None
    ("428a2f98 71374491 b5c0fbcf e9b5dba5 3956c25b 59f111f1 923f82a4 ab1c5ed5 " +:+
     "d807aa98 12835b01 243185be 550c7dc3 72be5d74 80deb1fe 9bdc06a7 c19bf174 " +:+
     "e49b69c1 efbe4786 0fc19dc6 240ca1cc 2de92c6f 4a7484aa 5cb0a9dc 76f988da " +:+
     "983e5152 a831c66d b00327c8 bf597fc7 c6e00bf3 d5a79147 06ca6351 14292967 " +:+
     "27b70a85 2e1b2138 4d2c6dfc 53380d13 650a7354 766a0abb 81c2c92e 92722c85 " +:+
     "a2bfe8a1 a81a664b c24b8b70 c76c51a3 d192e819 d6990624 f40e3585 106aa070 " +:+
     "19a4c116 1e376c08 2748774c 34b0bcb5 391c0cb3 4ed8aa4a 5b9cca4f 682e6ff3 " +:+
     "748f82ee 78a5636f 84c87814 8cc70208 90befffa a4506ceb bef9a3f7 c67178f2").

(** Padding (5.1.1): a 1 bit, zero bits up to 56 mod 64 bytes, then the
    message length in bits as a 64-bit big-endian integer. *)
Definition bytes_of_string (s : string) : list Z :=
  map (fun c => Z.of_N (N_of_ascii c)) (list_ascii_of_string s).

Fixpoint be_bytes (n : nat) (x : Z) : list Z :=
  match n with
  | O => []
  | S n' => be_bytes n' (Z.shiftr x 8) ++ [Z.land x 0xFF]
  end.

Definition pad (msg : list Z) : list Z :=
  let len := Z.of_nat (length msg) in
  let zeros := Z.to_nat ((55 - len) mod 64) in
  msg ++ [0x80] ++ repeat 0 zeros ++ be_bytes 8 (8 * len).

(** Big-endian 32-bit words of a byte string. *)
Fixpoint words_of_bytes (bs : list Z) : list Z :=
  match bs with
  | b0 :: b1 :: b2 :: b3 :: rest =>
      (Z.shiftl b0 24 + Z.shiftl b1 16 + Z.shiftl b2 8 + b3)
        :: words_of_bytes rest
  | _ => []
  end.

Fixpoint chunks16 (fuel : nat) (ws : list Z) : list (list Z) :=
  match fuel, ws with
  | S fuel', _ :: _ => take 16 ws :: chunks16 fuel' (drop 16 ws)
  | _, _ => []
  end.

(** The working variables a..h. *)
Record regs := Regs { ra : Z; rb : Z; rc : Z; rd : Z; re : Z; rf : Z; rg : Z; rh : Z }.

Definition regs_of_list (l : list Z) : regs :=
  match l with
  | [a; b; c; d; e; f; g; h] => Regs a b c d e f g h
  | _ => Regs 0 0 0 0 0 0 0 0
  end.

Definition list_of_regs (r : regs) : list Z :=
  [ra r; rb r; rc r; rd r; re r; rf r; rg r; rh r].

(** One round (6.2.2, step 3) on the working variables, with round constant
    [k] and schedule word [w]. *)
Definition round (r : regs) (k w : Z) : regs :=
  let t1 := add32 (add32 (add32 (add32 (rh r) (bsig1 (re r))) (Ch (re r) (rf r) (rg r))) k) w in
  let t2 := add32 (bsig0 (ra r)) (Maj (ra r) (rb r) (rc r)) in
  Regs (add32 t1 t2) (ra r) (rb r) (rc r) (add32 (rd r) t1) (re r) (rf r) (rg r).

(** The next word of the message schedule from the window of the last
    sixteen words (oldest first): W_t = ssig1 W_(t-2) + W_(t-7) + ssig0
    W_(t-15) + W_(t-16). *)
Definition next_word (win : list Z) : Z :=
  add32 (add32 (add32 (ssig1 (nth 14 win 0)) (nth 9 win 0)) (ssig0 (nth 1 win 0)))
        (nth 0 win 0).

(** The rounds of one block: [win] is the schedule window whose head is
    the word of the current round. *)
Fixpoint rounds (ks : list Z) (win : list Z) (r : regs) : regs :=
  match ks with
  | [] => r
  | k :: ks' =>
      let r' := round r k (nth 0 win 0) in
      rounds ks' (tl win ++ [next_word win]) r'
  end.

Definition compress (h : list Z) (block : list Z) : list Z :=
  let r := rounds K block (regs_of_list h) in
  zip_with add32 h (list_of_regs r).

Definition digest_words (msg : list Z) : list Z :=
  let ws := words_of_bytes (pad msg) in
  fold_left compress (chunks16 (length ws) ws) H0.

(** [fmt.Sprintf("%x", digest)]: two lowercase hexadecimal digits per byte. *)
Definition hex_digit (n : Z) : ascii :=
  if n <? 10 then ascii_of_N (Z.to_N (48 + n)) else ascii_of_N (Z.to_N (87 + n)).

Fixpoint hex_of (digits : nat) (x : Z) (tail : string) : string :=
  match digits with
  | O => tail
  | S d => hex_of d (Z.shiftr x 4) (String (hex_digit (Z.land x 0xF)) tail)
  end.

Definition hex_of_words (ws : list Z) : string :=
  fold_right (fun w acc => hex_of 8 w acc) "" ws.

(** [fmt.Sprintf("%x", sha256.Sum256([]byte(s)))] *)
Definition sum256_hex (s : string) : string :=
  hex_of_words (digest_words (bytes_of_string s)).

End SHA256.

Arguments SHA256.sum256_hex : simpl never.

(** ** Go's [int], [len] and the [fmt] and [strings] helpers the program uses *)

(** 64-bit two's-complement wrap-around of an integer result. *)
Definition int_wrap (x : Z) : Z := (x + 2 ^ 63) mod 2 ^ 64 - 2 ^ 63.

(** [n++] on an [int]. *)
Definition int_incr (n : Z) : Z := int_wrap (n + 1).

(** [len(s)] of a slice, as an [int]. *)
Definition len {A : Type} (s : list A) : Z := Z.of_nat (length s).

(** The verb [%d]: decimal digits, with a leading minus sign when negative. *)
Definition fmt_d (n : Z) : string :=
  DecimalString.NilZero.string_of_int (Z.to_int n).

(** The verb [%v] on a [[]string]: the elements separated by one blank,
    between square brackets. *)
Fixpoint join_blank (l : list string) : string :=
  match l with
  | [] => ""
  | [x] => x
  | x :: rest => x +:+ " " +:+ join_blank rest
  end.

Definition fmt_v (l : list string) : string := "[" +:+ join_blank l +:+ "]".

(** [strings.Repeat] and [strings.HasPrefix]. *)
Fixpoint Repeat (s : string) (count : nat) : string :=
  match count with
  | O => ""
  | S c => s +:+ Repeat s c
  end.

Definition HasPrefix (s prefix : string) : bool := String.prefix prefix s.

(** ** The data model *)

Record Block := mkBlock {
  Transaction : list string;
  Nonce : Z;
  PreviousHash : string;
  CurrentHash : string;
  MerkleRoot : string
}.

Record Blockchain := mkBlockchain {
  Blocks : list Block;
  NumTransactionsPerBlock : Z;
  BlockHashMin : string;
  BlockHashMax : string
}.

(** The zero value [Block{}]. *)
Definition Block_zero : Block := mkBlock [] 0 "" "" "".

(** [bc.Blocks = blocks], the other fields kept. *)
Definition with_Blocks (bc : Blockchain) (blocks : list Block) : Blockchain :=
  mkBlockchain blocks (NumTransactionsPerBlock bc) (BlockHashMin bc) (BlockHashMax bc).

(** [blocks[i]] for an index the program has checked to be in range (Go
    panics otherwise; every use below is guarded). *)
Definition at_index (blocks : list Block) (i : Z) : Block :=
  default Block_zero (blocks !! Z.to_nat i).

(** ** Merkle root *)

(** One pass of the [for i := 0; i < len(transactions); i += 2] loop of
    [CreateMerkleRoot]: consecutive pairs are concatenated and hashed, a
    last element without partner is concatenated with the empty string. *)
Fixpoint merkle_level (transactions : list string) : list string :=
  match transactions with
  | [] => []
  | [first] => [SHA256.sum256_hex (first +:+ "")]
  | first :: second :: rest =>
      SHA256.sum256_hex (first +:+ second) :: merkle_level rest
  end.

(** Induction two elements at a time, the way the loop walks the slice. *)
Lemma list_pair_ind {A : Type} (P : list A -> Prop) :
  P [] -> (forall x, P [x]) -> (forall x y l, P l -> P (x :: y :: l)) ->
  forall l, P l.
Proof.
  intros Hnil Hone Hpair l.
  assert (H : P l /\ forall x, P (x :: l)).
  { induction l as [| y l [IH1 IH2]]; split; auto. }
  exact (proj1 H).
Qed.

Lemma merkle_level_length (transactions : list string) :
  length (merkle_level transactions) = Nat.div2 (S (length transactions)).
Proof.
  induction transactions as [| x | x y rest IH] using list_pair_ind;
    [reflexivity | reflexivity |].
  cbn [merkle_level length Nat.div2] in *. rewrite IH. reflexivity.
Qed.

Equations? CreateMerkleRoot (transactions : list string) : string
  by wf (length transactions) lt :=
  CreateMerkleRoot [] := "";
  CreateMerkleRoot [x] := x;
  CreateMerkleRoot (x :: y :: rest) :=
    CreateMerkleRoot (merkle_level (x :: y :: rest)).
Proof.
  rewrite merkle_level_length.
  pose proof (Nat.div2_decr (S (length rest)) (length rest)). lia.
Qed.

(** The calls of [CreateMerkleRoot] as a big-step relation: a derivation is
    a terminating run of the Go function. *)
Inductive MerkleRoot_run : list string -> string -> Prop :=
| run_empty : MerkleRoot_run [] ""
| run_single x : MerkleRoot_run [x] x
| run_pairs transactions root :
    (2 <= length transactions)%nat ->
    MerkleRoot_run (merkle_level transactions) root ->
    MerkleRoot_run transactions root.

(** ** Block hash and proof of work *)

Definition CreateHash (transactions : list string) (nonce : Z)
    (previousHash merkleRoot : string) : string :=
  let data := fmt_v transactions +:+ fmt_d nonce +:+ previousHash +:+ merkleRoot in
  SHA256.sum256_hex data.

Definition leadingZeros : nat := 4.

(** The [for] loop of [FindValidNonce], from the candidate [nonce] on.  The
    Go loop has no bound; [fuel] bounds the number of candidates tried and
    [None] says that the search is still running when it is used up. *)
Fixpoint FindValidNonce_from (fuel : nat) (nonce : Z)
    (merkleRoot previousHash : string) : option Z :=
  match fuel with
  | O => None
  | S fuel' =>
      let prefix := Repeat "0" leadingZeros in
      let hash := CreateHash [] nonce previousHash merkleRoot in
      if HasPrefix hash prefix then Some nonce
      else FindValidNonce_from fuel' (int_incr nonce) merkleRoot previousHash
  end.

Definition FindValidNonce (fuel : nat) (merkleRoot previousHash : string) : option Z :=
  FindValidNonce_from fuel 0 merkleRoot previousHash.

(** ** The ledger operations *)

Definition GetRecentBlock (bc : Blockchain) : Block :=
  if len (Blocks bc) =? 0 then Block_zero
  else at_index (Blocks bc) (len (Blocks bc) - 1).

(** [NewBlock] returns the ledger after the call and the lines it printed. *)
Definition NewBlock (fuel : nat) (bc : Blockchain) (transactions : list string)
    : option (Blockchain * list string) :=
  if len transactions =? 0 then
    Some (bc, ["No Transactions to be added to Block."])
  else if len transactions >=? NumTransactionsPerBlock bc then
    let previousBlock := GetRecentBlock bc in
    let previousHash := CurrentHash previousBlock in
    let merkleRoot := CreateMerkleRoot transactions in
    match FindValidNonce fuel merkleRoot previousHash with
    | None => None
    | Some nonce =>
        let currentHash := CreateHash transactions nonce previousHash merkleRoot in
        let block := mkBlock transactions nonce previousHash currentHash merkleRoot in
        Some (with_Blocks bc (Blocks bc ++ [block]), [])
    end
  else Some (bc, ["Transactions to create a Block not reached yet."]).

(** [ChangeBlock] returns the ledger after the call and its boolean result. *)
Definition ChangeBlock (fuel : nat) (bc : Blockchain) (index : Z)
    (newTransaction : string) : option (Blockchain * bool) :=
  if (index >=? 0) && (index <? len (Blocks bc)) then
    let oldBlock := at_index (Blocks bc) index in
    let transactions := ([] ++ Transaction oldBlock) ++ [newTransaction] in
    let merkleRoot := CreateMerkleRoot transactions in
    let previousHash :=
      if index >? 0 then CurrentHash (at_index (Blocks bc) (index - 1)) else "" in
    match FindValidNonce fuel merkleRoot previousHash with
    | None => None
    | Some nonce =>
        let currentHash := CreateHash transactions nonce previousHash merkleRoot in
        let newBlock := mkBlock transactions nonce previousHash currentHash merkleRoot in
        Some (with_Blocks bc (<[Z.to_nat index := newBlock]> (Blocks bc)), true)
    end
  else Some (bc, false).

(** [VerifyChain]: the loop [for i := 1; i < len(bc.Blocks); i++] returns
    false at the first index whose link is broken. *)
Definition VerifyChain (bc : Blockchain) : bool :=
  forallb
    (fun i : nat =>
       String.eqb (PreviousHash (at_index (Blocks bc) (Z.of_nat i)))
                  (CurrentHash (at_index (Blocks bc) (Z.of_nat i - 1))))
    (seq 1 (length (Blocks bc) - 1)).

Definition setNumberOfTransactionsPerBlock (bc : Blockchain) (numTransactions : Z)
    : Blockchain * list string :=
  if numTransactions >=? 1 then
    (mkBlockchain (Blocks bc) numTransactions (BlockHashMin bc) (BlockHashMax bc), [])
  else (bc, ["No. of transactions per block at least be 1"]).

Definition setBlockHashRangeForBlockCreation (bc : Blockchain) (min max : string)
    : Blockchain :=
  mkBlockchain (Blocks bc) (NumTransactionsPerBlock bc) min max.

(** The ledger [main] starts from. *)
Definition main_ledger : Blockchain :=
  setBlockHashRangeForBlockCreation (mkBlockchain [] 5 "" "") "0000" "00000".

(** ** Display and the menu loop *)

(** The line feed, and [fmt.Println] of one string. *)
Definition nl : string := String (ascii_of_nat 10) "".

Definition Println (s : string) : string := s +:+ nl.

(** The six [fmt.Printf] calls of [DisplayBlocks] for the block at index
    [i]. *)
Definition display_block (i : Z) (block : Block) : string :=
  (nl +:+ "Block " +:+ fmt_d i +:+ ":" +:+ nl) +:+
  ("Transaction: " +:+ fmt_v (Transaction block) +:+ nl) +:+
  ("Nonce: " +:+ fmt_d (Nonce block) +:+ nl) +:+
  ("Previous Hash: " +:+ PreviousHash block +:+ nl) +:+
  ("Current Hash: " +:+ CurrentHash block +:+ nl) +:+
  ("Merkle Root: " +:+ MerkleRoot block +:+ nl +:+ nl).

(** The loop [for i, block := range bc.Blocks], from index [i] on. *)
Fixpoint DisplayBlocks_from (i : Z) (blocks : list Block) : string :=
  match blocks with
  | [] => ""
  | block :: rest => display_block i block +:+ DisplayBlocks_from (i + 1) rest
  end.

(** [DisplayBlocks] returns the text it prints. *)
Definition DisplayBlocks (bc : Blockchain) : string :=
  DisplayBlocks_from 0 (Blocks bc).

(** What the [fmt.Scan] calls of one iteration of the menu loop leave in
    their variables: the two integers and three strings of options 1, 2
    and 5, and the string read at each round of the loop of option 3. *)
Record scanned := mkScanned {
  sc_numTransactions : Z;
  sc_min : string;
  sc_max : string;
  sc_transaction : nat -> string;
  sc_index : Z;
  sc_newTransaction : string
}.

(** The menu printed at the start of every iteration. *)
Definition menu_text : string :=
  Println (nl +:+ "Menu:") +:+
  Println "1. Set No. of Transactions per Block" +:+
  Println "2. Set Block Hash Range" +:+
  Println "3. Add Transactions" +:+
  Println "4. Display Blocks" +:+
  Println "5. Change Block Transaction" +:+
  Println "6. Verify Blockchain" +:+
  Println "7. Exit" +:+
  "Select option: ".

(** The loop of option 3: one prompt and one scanned string per round,
    [NumTransactionsPerBlock] rounds (none when it is not positive). *)
Definition read_transactions (bc : Blockchain) (sc : scanned) : list string * string :=
  let rounds := seq 0 (Z.to_nat (NumTransactionsPerBlock bc)) in
  (map (sc_transaction sc) rounds,
   String.concat "" (map (fun _ => "Enter transaction: ") rounds)).

(** One iteration of the [for] loop of [main], for the value [choice] holds
    after its [fmt.Scan]: the ledger afterwards, the text printed, and
    whether the loop goes on ([false] after option 7). *)
Definition main_iteration (fuel : nat) (bc : Blockchain) (choice : Z) (sc : scanned)
    : option (Blockchain * string * bool) :=
  match choice with
  | 1 =>
      let '(bc', lines) := setNumberOfTransactionsPerBlock bc (sc_numTransactions sc) in
      Some (bc',
            menu_text +:+ "Enter the number of transactions per block: "
              +:+ String.concat "" (map Println lines),
            true)
  | 2 =>
      Some (setBlockHashRangeForBlockCreation bc (sc_min sc) (sc_max sc),
            menu_text +:+ "Enter the minimum block hash: "
              +:+ "Enter the maximum block hash: ",
            true)
  | 3 =>
      let '(transactions, prompts) := read_transactions bc sc in
      match NewBlock fuel bc transactions with
      | None => None
      | Some (bc', lines) =>
          Some (bc', menu_text +:+ prompts +:+ String.concat "" (map Println lines), true)
      end
  | 4 => Some (bc, menu_text +:+ DisplayBlocks bc, true)
  | 5 =>
      match ChangeBlock fuel bc (sc_index sc) (sc_newTransaction sc) with
      | None => None
      | Some (bc', ok) =>
          Some (bc',
                menu_text +:+ "Enter index of the block to change transaction: "
                  +:+ "Enter new transaction: "
                  +:+ (if ok then Println "Block transaction changed successfully."
                       else Println "Invalid block index."),
                true)
      end
  | 6 =>
      Some (bc,
            menu_text +:+ (if VerifyChain bc then Println "Blockchain is valid."
                           else Println "Blockchain is not valid."),
            true)
  | 7 => Some (bc, menu_text +:+ Println "Exiting...", false)
  | _ => Some (bc, menu_text +:+ Println "Invalid choice. Please enter a valid option.", true)
  end.

(** The iterations of the loop for the given scans, until option 7 or the
    end of the list: the ledger reached and everything printed. *)
Fixpoint main_loop (fuel : nat) (bc : Blockchain) (inputs : list (Z * scanned))
    : option (Blockchain * string) :=
  match inputs with
  | [] => Some (bc, "")
  | (choice, sc) :: rest =>
      match main_iteration fuel bc choice sc with
      | None => None
      | Some (bc', out, true) =>
          match main_loop fuel bc' rest with
          | None => None
          | Some (bc'', out') => Some (bc'', out +:+ out')
          end
      | Some (bc', out, false) => Some (bc', out)
      end
  end.

(** * Vocabulary of the specification *)

(** The difficulty predicate of the search: the hash starts with
    [leadingZeros] characters '0'. *)
Definition meets_difficulty (hash : string) : bool :=
  HasPrefix hash (Repeat "0" leadingZeros).

(** The candidate tried at iteration [k] of a search started at [nonce]. *)
Definition candidate (k : nat) (nonce : Z) : Z := Nat.iter k int_incr nonce.

(** Every block after the first stores the current hash of the block
    before it. *)
Definition linked (blocks : list Block) : Prop :=
  forall (i : nat) (b : Block), (0 < i)%nat -> blocks !! i = Some b ->
    exists p, blocks !! (i - 1)%nat = Some p /\ PreviousHash b = CurrentHash p.

(** The two guards of [NewBlock]: the batch is not empty and reaches the
    configured size. *)
Definition accepted (bc : Blockchain) (transactions : list string) : Prop :=
  transactions <> [] /\ NumTransactionsPerBlock bc <= len transactions.

(** The block [NewBlock] builds once the search has returned [nonce]. *)
Definition mined_block (bc : Blockchain) (transactions : list string) (nonce : Z) : Block :=
  let previousHash := CurrentHash (GetRecentBlock bc) in
  let merkleRoot := CreateMerkleRoot transactions in
  mkBlock transactions nonce previousHash
    (CreateHash transactions nonce previousHash merkleRoot) merkleRoot.

(** The block [ChangeBlock] stores at [index] once the search has returned
    [nonce]. *)
Definition rebuilt_block (bc : Blockchain) (index : Z) (newTransaction : string)
    (nonce : Z) : Block :=
  let transactions := Transaction (at_index (Blocks bc) index) ++ [newTransaction] in
  let merkleRoot := CreateMerkleRoot transactions in
  let previousHash :=
    if index =? 0 then "" else CurrentHash (at_index (Blocks bc) (index - 1)) in
  mkBlock transactions nonce previousHash
    (CreateHash transactions nonce previousHash merkleRoot) merkleRoot.

(** Ledgers reached from [bc] by calls of [NewBlock] and of the two
    configuration setters, in any order. *)
Inductive append_run (bc : Blockchain) : Blockchain -> Prop :=
| append_run_start : append_run bc bc
| append_run_NewBlock bc1 bc2 fuel transactions out :
    append_run bc bc1 ->
    NewBlock fuel bc1 transactions = Some (bc2, out) ->
    append_run bc bc2
| append_run_setNumber bc1 numTransactions :
    append_run bc bc1 ->
    append_run bc (fst (setNumberOfTransactionsPerBlock bc1 numTransactions))
| append_run_setRange bc1 min max :
    append_run bc bc1 ->
    append_run bc (setBlockHashRangeForBlockCreation bc1 min max).

(** Ledgers reached from [bc] by calls of any of the four operations that
    change a ledger. *)
Inductive ledger_run (bc : Blockchain) : Blockchain -> Prop :=
| ledger_run_start : ledger_run bc bc
| ledger_run_NewBlock bc1 bc2 fuel transactions out :
    ledger_run bc bc1 ->
    NewBlock fuel bc1 transactions = Some (bc2, out) ->
    ledger_run bc bc2
| ledger_run_ChangeBlock bc1 bc2 fuel index newTransaction ok :
    ledger_run bc bc1 ->
    ChangeBlock fuel bc1 index newTransaction = Some (bc2, ok) ->
    ledger_run bc bc2
| ledger_run_setNumber bc1 numTransactions :
    ledger_run bc bc1 ->
    ledger_run bc (fst (setNumberOfTransactionsPerBlock bc1 numTransactions))
| ledger_run_setRange bc1 min max :
    ledger_run bc bc1 ->
    ledger_run bc (setBlockHashRangeForBlockCreation bc1 min max).

(** A block whose fields fit together the way [NewBlock] and [ChangeBlock]
    compute them. *)
Definition block_consistent (b : Block) : Prop :=
  Transaction b <> [] /\
  MerkleRoot b = CreateMerkleRoot (Transaction b) /\
  CurrentHash b = CreateHash (Transaction b) (Nonce b) (PreviousHash b) (MerkleRoot b) /\
  meets_difficulty (CreateHash [] (Nonce b) (PreviousHash b) (MerkleRoot b)) = true.

(** The test [VerifyChain] makes at index [j]. *)
Definition link_ok (blocks : list Block) (j : Z) : Prop :=
  PreviousHash (at_index blocks j) = CurrentHash (at_index blocks (j - 1)).

(** [ChangeBlock] on [index], [index + 1], ... in turn, one new transaction
    for each. *)
Fixpoint rewrite_tail (fuel : nat) (bc : Blockchain) (index : Z) (ts : list string)
    : option Blockchain :=
  match ts with
  | [] => Some bc
  | t :: ts' =>
      match ChangeBlock fuel bc index t with
      | None => None
      | Some (bc', _) => rewrite_tail fuel bc' (index + 1) ts'
      end
  end.

(** The characters [%x] prints. *)
Definition is_lower_hex (c : ascii) : bool :=
  existsb (Ascii.eqb c) (list_ascii_of_string "0123456789abcdef").

(** A string of 64 characters, each one of [0-9a-f]. *)
Definition hex_digest (s : string) : Prop :=
  String.length s = 64%nat /\
  forallb is_lower_hex (list_ascii_of_string s) = true.


(** The exit condition of the search [ChangeBlock(index, t)] runs on [bc]:
    one of the first [fuel] candidates meets the difficulty. *)
Definition nonce_within_fuel (fuel : nat) (bc : Blockchain) (index : Z) (t : string)
    : Prop :=
  exists k : nat,
    (k < fuel)%nat /\
    HasPrefix
      (CreateHash [] (candidate k 0)
         (if index =? 0 then "" else CurrentHash (at_index (Blocks bc) (index - 1)))
         (CreateMerkleRoot (Transaction (at_index (Blocks bc) index) ++ [t])))
      "0000" = true.

(** The same for each call of [rewrite_tail], on the ledger the calls
    before it have left. *)
Fixpoint nonces_within_fuel (fuel : nat) (bc : Blockchain) (index : Z) (ts : list string)
    : Prop :=
  match ts with
  | [] => True
  | t :: ts' =>
      nonce_within_fuel fuel bc index t /\
      forall bc' : Blockchain,
        ChangeBlock fuel bc index t = Some (bc', true) ->
        nonces_within_fuel fuel bc' (index + 1) ts'
  end.

(** ** A concrete session *)

(** Two batches of five transactions, appended to the ledger [main] starts
    from, and the ledgers the two calls of [NewBlock] produce. *)
Definition batch1 : list string :=
  ["alice->bob:5"; "bob->carol:2"; "carol->dave:1"; "dave->erin:7"; "tx28714"].

Definition batch2 : list string :=
  ["erin->alice:3"; "alice->carol:4"; "carol->bob:9"; "bob->dave:6"; "tx86061"].

Definition block1 : Block :=
  mkBlock batch1 2 ""
    "ecf9740d075725d19fafb247c7ab162de1b396dca96d29dd15ab30d3f7072a8a"
    "6d743e00c759fa4c5659550b6f92c20a5d7ab1a1fae10c0e1a6c0a49b12cda2b".

Definition block2 : Block :=
  mkBlock batch2 1
    "ecf9740d075725d19fafb247c7ab162de1b396dca96d29dd15ab30d3f7072a8a"
    "23f124d9c81cbb4dba40fb53e9af20103fdf29efd1cfa4cad486d8cd59be211c"
    "5abc2a42605318b162cfd43a08ce1b136b923780a89555da51ead0b428af91b0".

Definition ledger1 : Blockchain := mkBlockchain [block1] 5 "0000" "00000".
Definition ledger2 : Blockchain := mkBlockchain [block1; block2] 5 "0000" "00000".

(** [block1] after [ChangeBlock(0, "fee62490")] and [block2] after
    [ChangeBlock(1, "tip113994")]. *)
Definition block1_rewritten : Block :=
  mkBlock (batch1 ++ ["fee62490"]) 1 ""
    "582b78af255d420225c58dec8c0b0641cf74fb0491477cdf32d73a0ca9b8d21a"
    "aba21d9f4d415ab8b8bf800736ad04b66cd9234d31ad646ddf603fe1a234f2de".

Definition block2_rewritten : Block :=
  mkBlock (batch2 ++ ["tip113994"]) 1
    "ecf9740d075725d19fafb247c7ab162de1b396dca96d29dd15ab30d3f7072a8a"
    "05484de98d43ee821c662318ec9d69b827ac04789f5e059ec9b9ddbb4ce02a38"
    "b0719b970913e48e1b24280fe9b6504702803490c741b8ff2a0754bdf62e953f".

Definition ledger2_rewritten0 : Blockchain :=
  mkBlockchain [block1_rewritten; block2] 5 "0000" "00000".

(** [block2] after [ChangeBlock(1, "fix1042")] on the ledger whose first
    block was rewritten. *)
Definition block2_relinked : Block :=
  mkBlock (batch2 ++ ["fix1042"]) 1
    "582b78af255d420225c58dec8c0b0641cf74fb0491477cdf32d73a0ca9b8d21a"
    "040884ab929548f42590d4590e3872d621f0713094cf00054961a358900454a6"
    "6f0d6a2a032e5dca3c64548eb924a2ac3e492387e171afb43a3e9e0d1638e6d0".

Definition ledger2_relinked : Blockchain :=
  mkBlockchain [block1_rewritten; block2_relinked] 5 "0000" "00000".

(** Scans that type [batch1] at the prompts of option 3. *)
Definition scans_batch1 : scanned :=
  mkScanned 0 "" "" (fun i => nth i batch1 "") 0 "".

(** A third batch, appended to [ledger2], and the three blocks after
    [ChangeBlock] on index 0, then 1, then 2. *)
Definition batch3 : list string :=
  ["dave->alice:2"; "erin->bob:1"; "alice->erin:8"; "bob->carol:4"; "tx25423"].

Definition block3 : Block :=
  mkBlock batch3 0
    "23f124d9c81cbb4dba40fb53e9af20103fdf29efd1cfa4cad486d8cd59be211c"
    "9733ca5ec9fb78ddbb9c0cbe2bfabb38bc8125d4786fd25e00d01784b9c1d416"
    "8f03a723aa3c3bec20c44599ddcba22f7f5eb75133cb2b4275acbfdb5d49cbfa".

Definition block3_relinked : Block :=
  mkBlock (batch3 ++ ["fix7728"]) 1
    "040884ab929548f42590d4590e3872d621f0713094cf00054961a358900454a6"
    "be70d6b82b3039d5101aa3acb25448bb4db0ec7c36421f16e08dfe670ef664d6"
    "4ac11e6c0c9c827d9c06b853ca2dc3423803c8ffa7f93a7163b340425384b24c".

Definition ledger3 : Blockchain :=
  mkBlockchain [block1; block2; block3] 5 "0000" "00000".

Definition ledger3_rewritten0 : Blockchain :=
  mkBlockchain [block1_rewritten; block2; block3] 5 "0000" "00000".

Definition ledger3_rewritten1 : Blockchain :=
  mkBlockchain [block1_rewritten; block2_relinked; block3] 5 "0000" "00000".

Definition ledger3_relinked : Blockchain :=
  mkBlockchain [block1_rewritten; block2_relinked; block3_relinked] 5 "0000" "00000".

(** A ledger the type admits and the operations never build: between two
    blocks appended by [NewBlock] sits a block with no transaction.  Its
    other fields are what the code computes for an empty transaction list
    after the first block: the empty Merkle root, the nonce 15 the search
    returns for it, and the [CreateHash] of these fields. *)
Definition batch_g : list string :=
  ["gina->hugo:4"; "hugo->ivan:8"; "ivan->judy:3"; "judy->gina:6"; "tx9747210"].

Definition batch_k : list string :=
  ["kate->liam:2"; "liam->mona:5"; "mona->nick:1"; "nick->kate:9"; "tx3306"].

Definition block_g : Block :=
  mkBlock batch_g 0 ""
    "7a301f1ab4da6c69a779055c1a655934ba7dc0e02a42f2809c269ea1356b8988"
    "ed3ee4c7af9b43c5ea33e800572c7f467ce1d7d812b9476beb205d18f725dfb7".

Definition block_void : Block :=
  mkBlock [] 15
    "7a301f1ab4da6c69a779055c1a655934ba7dc0e02a42f2809c269ea1356b8988"
    "0000456fa3c07a39a9cc54d1ece77755c247c076515e5c74b8e1e8ca3bd999a1"
    "".

Definition block_k : Block :=
  mkBlock batch_k 2
    "0000456fa3c07a39a9cc54d1ece77755c247c076515e5c74b8e1e8ca3bd999a1"
    "b592e73b0f331dfed55e3a98d5bc1d150f4d02e1a27055f6ef99ebfab8bda5c2"
    "424784bfb9b32b3e67d8776a984588566ece02caa9a1ecf61860850ce97714f3".

Definition ledger_void : Blockchain :=
  mkBlockchain [block_g; block_void; block_k] 5 "0000" "00000".


(** * Properties *)

(** Closed facts are settled by evaluating both sides. *)
Ltac by_evaluation := vm_compute; first [reflexivity | discriminate].

(** ** SHA-256 test vectors (FIPS 180-4 examples) *)

Example sum256_hex_abc :
  SHA256.sum256_hex "abc"
  = "ba7816bf8f01cfea414140de5dae2223b00361a396177a9cb410ff61f20015ad".
Proof. by_evaluation. Qed.

Example sum256_hex_empty :
  SHA256.sum256_hex ""
  = "e3b0c44298fc1c149afbf4c8996fb92427ae41e4649b934ca495991b7852b855".
Proof. by_evaluation. Qed.

Example sum256_hex_two_blocks :
  SHA256.sum256_hex "abcdbcdecdefdefgefghfghighijhijkijkljklmklmnlmnomnopnopq"
  = "248d6a61d20638b8e5c026930c3e6039a33ce45964ff2167f6ecedd419db06c1".
Proof. by_evaluation. Qed.

(** ** Strings and indices *)

Lemma append_empty_r (s : string) : s +:+ "" = s.
Proof.
  induction s as [| c s IH]; [reflexivity |].
  change (String c (s +:+ "") = String c s). now f_equal.
Qed.

Lemma append_assoc (s1 s2 s3 : string) : (s1 +:+ s2) +:+ s3 = s1 +:+ (s2 +:+ s3).
Proof.
  induction s1 as [| c s1 IH]; [reflexivity |].
  change (String c ((s1 +:+ s2) +:+ s3) = String c (s1 +:+ (s2 +:+ s3))). now f_equal.
Qed.


Lemma at_index_lookup (blocks : list Block) (i : Z) :
  0 <= i < len blocks -> blocks !! Z.to_nat i = Some (at_index blocks i).
Proof.
  intros Hi. unfold at_index, len in *.
  destruct (lookup_lt_is_Some_2 blocks (Z.to_nat i)) as [b Hb]; [lia |].
  now rewrite Hb.
Qed.

Lemma at_index_of_lookup (blocks : list Block) (i : nat) (b : Block) :
  blocks !! i = Some b -> at_index blocks (Z.of_nat i) = b.
Proof. intros Hb. unfold at_index. rewrite Nat2Z.id, Hb. reflexivity. Qed.

Lemma GetRecentBlock_last (bc : Blockchain) :
  GetRecentBlock bc = default Block_zero (last (Blocks bc)).
Proof.
  unfold GetRecentBlock, at_index, len. rewrite last_lookup.
  destruct (Blocks bc) as [| b l]; [reflexivity |].
  destruct (Z.eqb_spec (Z.of_nat (length (b :: l))) 0) as [H0 | _]; [cbn in H0; lia |].
  do 2 f_equal. cbn [length]. lia.
Qed.

(** ** Merkle root *)

Lemma CreateMerkleRoot_pairs (transactions : list string) :
  (2 <= length transactions)%nat ->
  CreateMerkleRoot transactions = CreateMerkleRoot (merkle_level transactions).
Proof.
  destruct transactions as [| x [| y rest]]; cbn [length]; try lia.
  intros _. now simp CreateMerkleRoot.
Qed.

Lemma MerkleRoot_run_total (transactions : list string) :
  MerkleRoot_run transactions (CreateMerkleRoot transactions).
Proof.
  funelim (CreateMerkleRoot transactions).
  - constructor.
  - constructor.
  - apply run_pairs; [cbn; lia | assumption].
Qed.

Lemma MerkleRoot_run_deterministic (transactions : list string) (root : string) :
  MerkleRoot_run transactions root -> root = CreateMerkleRoot transactions.
Proof.
  induction 1 as [| x | transactions root Hlen _ IH].
  - now simp CreateMerkleRoot.
  - now simp CreateMerkleRoot.
  - now rewrite CreateMerkleRoot_pairs.
Qed.

(** C9: the Merkle root of the empty list is the empty string, and the
    Merkle root of a one-element list is that element, not hashed. *)
Theorem CreateMerkleRoot_empty_and_single :
  CreateMerkleRoot [] = "" /\ forall x : string, CreateMerkleRoot [x] = x.
Proof. split; [| intros x]; now simp CreateMerkleRoot. Qed.

(** C2, as the code computes it: two elements give the hash of their
    concatenation; three elements give the hash of [hash (a+b)] followed by
    the hash of [c] (the odd last element is hashed with the empty string
    before the next level pairs it). *)
Theorem CreateMerkleRoot_two_and_three (a b c : string) :
  CreateMerkleRoot [a; b] = SHA256.sum256_hex (a +:+ b) /\
  CreateMerkleRoot [a; b; c]
  = SHA256.sum256_hex (SHA256.sum256_hex (a +:+ b) +:+ SHA256.sum256_hex c).
Proof.
  split; simp CreateMerkleRoot; cbn [merkle_level]; simp CreateMerkleRoot.
  - reflexivity.
  - cbn [merkle_level]. simp CreateMerkleRoot. now rewrite append_empty_r.
Qed.

(** C2 as stated fails: on [["a"; "b"; "c"]] the root is not
    [hash (hash ("a"+"b") + "c")]. *)
Lemma CreateMerkleRoot_three_not_raw_tail :
  ~ (CreateMerkleRoot ["a"; "b"] = SHA256.sum256_hex ("a" +:+ "b") /\
     CreateMerkleRoot ["a"; "b"; "c"]
     = SHA256.sum256_hex (SHA256.sum256_hex ("a" +:+ "b") +:+ "c")).
Proof. intros [_ H]. vm_compute in H. discriminate H. Qed.

(** C10: every call of [CreateMerkleRoot] terminates: the recursive call
    receives a list of length ceil(n/2), shorter than n when n >= 2, and
    the run from any list ends with the value of [CreateMerkleRoot]. *)
Theorem CreateMerkleRoot_terminates (transactions : list string) :
  let n := length transactions in
  length (merkle_level transactions) = ((n + 1) / 2)%nat /\
  ((2 <= n)%nat -> (length (merkle_level transactions) < n)%nat) /\
  (exists root, MerkleRoot_run transactions root) /\
  (forall root, MerkleRoot_run transactions root ->
                root = CreateMerkleRoot transactions).
Proof.
  cbv zeta. rewrite merkle_level_length, Nat.div2_div.
  replace (S (length transactions)) with (length transactions + 1)%nat by lia.
  repeat split.
  - intros Hn. apply Nat.Div0.div_lt_upper_bound. lia.
  - exists (CreateMerkleRoot transactions). apply MerkleRoot_run_total.
  - apply MerkleRoot_run_deterministic.
Qed.

(** ** Proof-of-work search *)

Lemma candidate_S (k : nat) (nonce : Z) :
  candidate (S k) nonce = candidate k (int_incr nonce).
Proof. unfold candidate. now rewrite Nat.iter_succ_r. Qed.

Section Search.

(** The two strings a search is run for. *)
Variables merkleRoot previousHash : string.

(** The test the loop applies to a candidate nonce. *)
Let valid (nonce : Z) : bool :=
  meets_difficulty (CreateHash [] nonce previousHash merkleRoot).

Lemma FindValidNonce_from_step (fuel : nat) (start : Z) :
  FindValidNonce_from (S fuel) start merkleRoot previousHash
  = if valid start then Some start
    else FindValidNonce_from fuel (int_incr start) merkleRoot previousHash.
Proof. reflexivity. Qed.

(** A search that returns has found the first candidate whose hash, taken
    over the empty transaction list, meets the difficulty. *)
Lemma FindValidNonce_from_sound (fuel : nat) (start nonce : Z) :
  FindValidNonce_from fuel start merkleRoot previousHash = Some nonce ->
  exists k, (k < fuel)%nat /\ nonce = candidate k start /\
    valid nonce = true /\
    forall j, (j < k)%nat -> valid (candidate j start) = false.
Proof.
  revert start. induction fuel as [| fuel IH]; intros start; [discriminate |].
  rewrite FindValidNonce_from_step. destruct (valid start) eqn:Hv.
  - intros [= <-]. exists 0%nat. repeat split; [lia | assumption | lia].
  - intros Hrec. destruct (IH _ Hrec) as (k & Hk & -> & Hok & Hmin).
    exists (S k). rewrite candidate_S. repeat split; [lia | assumption |].
    intros [| j] Hj; [exact Hv |]. rewrite candidate_S. apply Hmin. lia.
Qed.

(** The search returns as soon as the fuel covers a candidate that meets
    the difficulty. *)
Lemma FindValidNonce_from_complete (fuel : nat) (start : Z) (k : nat) :
  (k < fuel)%nat ->
  valid (candidate k start) = true ->
  exists nonce, FindValidNonce_from fuel start merkleRoot previousHash = Some nonce.
Proof.
  revert start k. induction fuel as [| fuel IH]; intros start k Hk Hok; [lia |].
  rewrite FindValidNonce_from_step. destruct (valid start) eqn:Hv; [eauto |].
  destruct k as [| k]; [cbn in Hok; congruence |].
  rewrite candidate_S in Hok. apply (IH _ k); [lia | assumption].
Qed.

(** More fuel does not change the result of a search that returned. *)
Lemma FindValidNonce_from_more_fuel (fuel fuel' : nat) (start nonce : Z) :
  (fuel <= fuel')%nat ->
  FindValidNonce_from fuel start merkleRoot previousHash = Some nonce ->
  FindValidNonce_from fuel' start merkleRoot previousHash = Some nonce.
Proof.
  revert fuel' start. induction fuel as [| fuel IH]; intros fuel' start Hle;
    [discriminate |].
  destruct fuel' as [| fuel']; [lia |]. rewrite !FindValidNonce_from_step.
  destruct (valid start); [trivial |]. apply IH. lia.
Qed.

End Search.

(** ** Chain linkage *)

Lemma VerifyChain_linked (bc : Blockchain) :
  VerifyChain bc = true <-> linked (Blocks bc).
Proof.
  unfold VerifyChain, linked. rewrite forallb_forall. split.
  - intros H i b Hi Hb.
    assert (Hlt : (i < length (Blocks bc))%nat) by (eapply lookup_lt_Some; eauto).
    destruct (lookup_lt_is_Some_2 (Blocks bc) (i - 1)) as [p Hp]; [lia |].
    exists p. split; [assumption |].
    specialize (H i). rewrite in_seq in H.
    apply String.eqb_eq in H; [| lia].
    rewrite (at_index_of_lookup _ _ _ Hb) in H.
    replace (Z.of_nat i - 1) with (Z.of_nat (i - 1)) in H by lia.
    now rewrite (at_index_of_lookup _ _ _ Hp) in H.
  - intros H i Hin. apply in_seq in Hin. apply String.eqb_eq.
    destruct (lookup_lt_is_Some_2 (Blocks bc) i) as [b Hb]; [lia |].
    destruct (H i b) as (p & Hp & Heq); [lia | assumption |].
    rewrite (at_index_of_lookup _ _ _ Hb).
    replace (Z.of_nat i - 1) with (Z.of_nat (i - 1)) by lia.
    now rewrite (at_index_of_lookup _ _ _ Hp).
Qed.

Lemma linked_snoc (blocks : list Block) (b : Block) :
  linked blocks ->
  PreviousHash b = CurrentHash (default Block_zero (last blocks)) ->
  linked (blocks ++ [b]).
Proof.
  intros Hl Hb i c Hi Hc. apply lookup_snoc_Some in Hc as [[Hlt Hc] | [-> ->]].
  - destruct (Hl i c Hi Hc) as (p & Hp & Heq). exists p. split; [| assumption].
    now apply lookup_app_l_Some.
  - rewrite last_lookup in Hb.
    destruct (lookup_lt_is_Some_2 blocks (length blocks - 1)) as [p Hp]; [lia |].
    exists p. split; [now apply lookup_app_l_Some |].
    replace (pred (length blocks)) with (length blocks - 1)%nat in Hb by lia.
    now rewrite Hp in Hb.
Qed.

(** ** NewBlock *)

Lemma len_zero_iff {A : Type} (l : list A) : len l = 0 <-> l = [].
Proof. unfold len. destruct l; cbn; split; intros; (congruence || lia). Qed.

Lemma NewBlock_accepted (fuel : nat) (bc : Blockchain) (transactions : list string) :
  accepted bc transactions ->
  NewBlock fuel bc transactions =
  match FindValidNonce fuel (CreateMerkleRoot transactions)
          (CurrentHash (GetRecentBlock bc)) with
  | None => None
  | Some nonce =>
      Some (with_Blocks bc (Blocks bc ++ [mined_block bc transactions nonce]), [])
  end.
Proof.
  intros [Hne Hsz]. unfold NewBlock.
  destruct (Z.eqb_spec (len transactions) 0) as [H0 | _];
    [now apply len_zero_iff in H0 |].
  destruct (Z.geb_spec (len transactions) (NumTransactionsPerBlock bc)); [| lia].
  reflexivity.
Qed.

Lemma NewBlock_not_accepted (fuel : nat) (bc : Blockchain) (transactions : list string) :
  ~ accepted bc transactions ->
  exists msg, NewBlock fuel bc transactions = Some (bc, [msg]).
Proof.
  intros Hna. unfold NewBlock.
  destruct (Z.eqb_spec (len transactions) 0) as [H0 | Hn0]; [eauto |].
  destruct (Z.geb_spec (len transactions) (NumTransactionsPerBlock bc)); [| eauto].
  exfalso. apply Hna. split; [| lia]. intros ->. now apply Hn0.
Qed.

Lemma accepted_dec (bc : Blockchain) (transactions : list string) :
  accepted bc transactions \/ ~ accepted bc transactions.
Proof.
  unfold accepted. destruct transactions as [| x l]; [right; intros [H _]; congruence |].
  destruct (Z_le_gt_dec (NumTransactionsPerBlock bc) (len (x :: l)));
    [left; split; [discriminate | assumption] | right; intros [_ H]; lia].
Qed.

(** Whatever [NewBlock] returns, the ledger is either untouched or one
    mined block longer. *)
Lemma NewBlock_inv (fuel : nat) (bc bc' : Blockchain) (transactions : list string)
    (out : list string) :
  NewBlock fuel bc transactions = Some (bc', out) ->
  (bc' = bc /\ ~ accepted bc transactions) \/
  (exists nonce,
      accepted bc transactions /\
      FindValidNonce fuel (CreateMerkleRoot transactions)
        (CurrentHash (GetRecentBlock bc)) = Some nonce /\
      bc' = with_Blocks bc (Blocks bc ++ [mined_block bc transactions nonce]) /\
      out = []).
Proof.
  intros Hnew. destruct (accepted_dec bc transactions) as [Hacc | Hna].
  - right. rewrite (NewBlock_accepted _ _ _ Hacc) in Hnew.
    destruct (FindValidNonce _ _ _) as [nonce |]; [| discriminate].
    exists nonce. now inversion Hnew.
  - left. destruct (NewBlock_not_accepted fuel _ _ Hna) as [msg Hmsg].
    rewrite Hmsg in Hnew. inversion Hnew. subst. now split.
Qed.

(** The nonce a mined block stores meets the difficulty for the hash the
    search computes, which is taken over the empty transaction list. *)
Lemma NewBlock_nonce_found (fuel : nat) (bc bc' : Blockchain)
    (transactions : list string) (out : list string) :
  NewBlock fuel bc transactions = Some (bc', out) ->
  Blocks bc' <> Blocks bc ->
  let b := GetRecentBlock bc' in
  meets_difficulty (CreateHash [] (Nonce b) (PreviousHash b) (MerkleRoot b)) = true.
Proof.
  intros Hnew Hne. destruct (NewBlock_inv _ _ _ _ _ Hnew) as [[-> _] | (nonce & _ & Hs & -> & _)];
    [congruence |].
  cbv zeta. rewrite GetRecentBlock_last. cbn [with_Blocks Blocks]. rewrite last_snoc.
  cbn [default mined_block Nonce PreviousHash MerkleRoot].
  apply FindValidNonce_from_sound in Hs as (k & _ & _ & Hok & _). exact Hok.
Qed.

(** C7: a batch that is empty or shorter than [NumTransactionsPerBlock]
    creates no block: [NewBlock] prints one diagnostic line and returns the
    ledger exactly as it was. *)
Theorem NewBlock_rejects_small_batch (fuel : nat) (bc : Blockchain)
    (transactions : list string) :
  transactions = [] \/ len transactions < NumTransactionsPerBlock bc ->
  exists msg, NewBlock fuel bc transactions = Some (bc, [msg]).
Proof.
  intros Hsmall. apply NewBlock_not_accepted. intros [Hne Hsz].
  destruct Hsmall as [-> | Hlt]; [congruence | lia].
Qed.

Lemma NewBlock_rejects_small_batch_witness :
  exists msg, NewBlock 0 main_ledger ["alice->bob:5"; "bob->carol:2"]
              = Some (main_ledger, [msg]).
Proof.
  apply (NewBlock_rejects_small_batch 0 main_ledger ["alice->bob:5"; "bob->carol:2"]).
  right. by_evaluation.
Defined.

(** C4: when [NewBlock] appends a block, that block is the new most recent
    block and its [PreviousHash] is the [CurrentHash] of the block that
    was last before the call, or the empty string when there was none. *)
Theorem NewBlock_links_to_previous (fuel : nat) (bc bc' : Blockchain)
    (transactions : list string) (out : list string) :
  NewBlock fuel bc transactions = Some (bc', out) ->
  Blocks bc' <> Blocks bc ->
  exists b, Blocks bc' = Blocks bc ++ [b] /\ GetRecentBlock bc' = b /\
    PreviousHash b = CurrentHash (GetRecentBlock bc) /\
    PreviousHash b = match last (Blocks bc) with
                     | Some p => CurrentHash p
                     | None => ""
                     end.
Proof.
  intros Hnew Hne. destruct (NewBlock_inv _ _ _ _ _ Hnew) as [[-> _] | (nonce & _ & _ & -> & _)];
    [congruence |].
  exists (mined_block bc transactions nonce). repeat split.
  - rewrite GetRecentBlock_last. cbn [with_Blocks Blocks]. now rewrite last_snoc.
  - cbn [mined_block PreviousHash]. rewrite GetRecentBlock_last.
    now destruct (last (Blocks bc)).
Qed.

(** ** Runs without ChangeBlock *)

Lemma setNumber_Blocks (bc : Blockchain) (n : Z) :
  Blocks (fst (setNumberOfTransactionsPerBlock bc n)) = Blocks bc.
Proof. unfold setNumberOfTransactionsPerBlock. now destruct (n >=? 1). Qed.

Lemma append_run_linked (bc0 bc : Blockchain) :
  linked (Blocks bc0) -> append_run bc0 bc -> linked (Blocks bc).
Proof.
  intros H0. induction 1 as [| bc1 bc2 fuel txs out _ IH Hnew | bc1 n _ IH | bc1 mn mx _ IH].
  - assumption.
  - destruct (NewBlock_inv _ _ _ _ _ Hnew) as [[-> _] | (nonce & _ & _ & -> & _)];
      [assumption |].
    cbn [with_Blocks Blocks]. apply linked_snoc; [assumption |].
    cbn [mined_block PreviousHash]. now rewrite GetRecentBlock_last.
  - now rewrite setNumber_Blocks.
  - assumption.
Qed.

(** C3: from an empty ledger, any sequence of [NewBlock] calls (with
    configuration changes in between, but no [ChangeBlock]) leaves a chain
    that [VerifyChain] accepts; equivalently every block after the first
    stores the [CurrentHash] of its predecessor. *)
Theorem VerifyChain_after_NewBlocks (bc0 bc : Blockchain) :
  Blocks bc0 = [] ->
  append_run bc0 bc ->
  VerifyChain bc = true /\
  forall i : Z, 0 < i < len (Blocks bc) ->
    PreviousHash (at_index (Blocks bc) i) = CurrentHash (at_index (Blocks bc) (i - 1)).
Proof.
  intros Hempty Hrun.
  assert (Hl : linked (Blocks bc)).
  { apply (append_run_linked bc0); [| assumption].
    rewrite Hempty. intros i b _ Hb. now rewrite lookup_nil in Hb. }
  split; [now apply VerifyChain_linked |].
  intros i Hi.
  pose proof (at_index_lookup (Blocks bc) i ltac:(lia)) as Hb.
  pose proof (at_index_lookup (Blocks bc) (i - 1) ltac:(lia)) as Hp.
  destruct (Hl (Z.to_nat i) _ ltac:(lia) Hb) as (p & Hp' & Heq).
  replace (Z.to_nat i - 1)%nat with (Z.to_nat (i - 1)) in Hp' by lia.
  congruence.
Qed.

(** ** ChangeBlock *)

Lemma ChangeBlock_in_range (fuel : nat) (bc : Blockchain) (index : Z) (t : string) :
  0 <= index < len (Blocks bc) ->
  ChangeBlock fuel bc index t =
  match FindValidNonce fuel
          (CreateMerkleRoot (Transaction (at_index (Blocks bc) index) ++ [t]))
          (if index =? 0 then "" else CurrentHash (at_index (Blocks bc) (index - 1)))
  with
  | None => None
  | Some nonce =>
      Some (with_Blocks bc (<[Z.to_nat index := rebuilt_block bc index t nonce]> (Blocks bc)),
            true)
  end.
Proof.
  intros [Hlo Hhi]. unfold ChangeBlock, rebuilt_block.
  destruct (Z.geb_spec index 0); [| lia].
  destruct (Z.ltb_spec index (len (Blocks bc))); [| lia].
  cbn [andb app].
  destruct (Z.gtb_spec index 0), (Z.eqb_spec index 0); try lia; reflexivity.
Qed.

(** C8: with an index below 0 or not below the number of blocks,
    [ChangeBlock] returns false and the ledger it leaves is the one it was
    given, blocks and configuration. *)
Theorem ChangeBlock_out_of_range (fuel : nat) (bc : Blockchain) (index : Z)
    (newTransaction : string) :
  index < 0 \/ index >= len (Blocks bc) ->
  ChangeBlock fuel bc index newTransaction = Some (bc, false).
Proof.
  intros Hout. unfold ChangeBlock.
  destruct (Z.geb_spec index 0); [| reflexivity].
  destruct (Z.ltb_spec index (len (Blocks bc))); [lia | reflexivity].
Qed.

(** C6: for an index in range, [ChangeBlock] returns true as soon as the
    fuel covers a nonce that meets the difficulty; the block at [index]
    becomes the old transactions followed by the new one, with the Merkle
    root of that list, the [CurrentHash] of the block before it (the empty
    string at index 0) as [PreviousHash], the nonce found and [CreateHash]
    of these fields; all other blocks and the configuration are
    unchanged. *)
Theorem ChangeBlock_replaces_one_block (fuel : nat) (bc : Blockchain) (index : Z)
    (newTransaction : string) (k : nat) :
  let transactions := Transaction (at_index (Blocks bc) index) ++ [newTransaction] in
  let merkleRoot := CreateMerkleRoot transactions in
  let previousHash :=
    if index =? 0 then "" else CurrentHash (at_index (Blocks bc) (index - 1)) in
  0 <= index < len (Blocks bc) ->
  (k < fuel)%nat ->
  meets_difficulty (CreateHash [] (candidate k 0) previousHash merkleRoot) = true ->
  exists nonce bc',
    FindValidNonce fuel merkleRoot previousHash = Some nonce /\
    ChangeBlock fuel bc index newTransaction = Some (bc', true) /\
    Blocks bc' !! Z.to_nat index
    = Some (mkBlock transactions nonce previousHash
              (CreateHash transactions nonce previousHash merkleRoot) merkleRoot) /\
    (forall j : nat, j <> Z.to_nat index -> Blocks bc' !! j = Blocks bc !! j) /\
    length (Blocks bc') = length (Blocks bc) /\
    NumTransactionsPerBlock bc' = NumTransactionsPerBlock bc /\
    BlockHashMin bc' = BlockHashMin bc /\
    BlockHashMax bc' = BlockHashMax bc.
Proof.
  cbv zeta. intros Hin Hk Hvalid.
  destruct (FindValidNonce_from_complete _ _ fuel 0 k Hk Hvalid) as [nonce Hsearch].
  exists nonce. rewrite (ChangeBlock_in_range _ _ _ _ Hin).
  unfold FindValidNonce. rewrite Hsearch.
  eexists. split; [reflexivity |]. split; [reflexivity |].
  cbn [with_Blocks Blocks NumTransactionsPerBlock BlockHashMin BlockHashMax].
  repeat split.
  - apply list_lookup_insert_eq. unfold len in Hin. lia.
  - intros j Hj. now apply list_lookup_insert_ne.
  - apply length_insert.
Qed.

(** [ChangeBlock] on an index in range returns exactly when the search does. *)
Lemma ChangeBlock_returns (fuel : nat) (bc bc' : Blockchain) (index : Z) (t : string)
    (ok : bool) :
  0 <= index < len (Blocks bc) ->
  ChangeBlock fuel bc index t = Some (bc', ok) ->
  exists nonce,
    FindValidNonce fuel
      (CreateMerkleRoot (Transaction (at_index (Blocks bc) index) ++ [t]))
      (if index =? 0 then "" else CurrentHash (at_index (Blocks bc) (index - 1)))
    = Some nonce /\
    bc' = with_Blocks bc (<[Z.to_nat index := rebuilt_block bc index t nonce]> (Blocks bc)) /\
    ok = true.
Proof.
  intros Hin Hcb. rewrite (ChangeBlock_in_range _ _ _ _ Hin) in Hcb.
  destruct (FindValidNonce _ _ _) as [nonce |]; [| discriminate].
  exists nonce. inversion Hcb. now repeat split.
Qed.


(** ** A concrete session *)

Example NewBlock_batch1 : NewBlock 3 main_ledger batch1 = Some (ledger1, []).
Proof. by_evaluation. Qed.

Example NewBlock_batch2 : NewBlock 2 ledger1 batch2 = Some (ledger2, []).
Proof. by_evaluation. Qed.

Example ChangeBlock_ledger2_0 :
  ChangeBlock 2 ledger2 0 "fee62490" = Some (ledger2_rewritten0, true).
Proof. by_evaluation. Qed.

(** C1 fails on the code: the search tests the hash of the empty
    transaction list, the stored [CurrentHash] is the hash of the real
    batch.  On the first batch appended to the ledger [main] creates, the
    nonce found (2) meets the difficulty for the hash the search computed,
    and the [CurrentHash] stored in the new block starts with "ecf9". *)
Theorem NewBlock_CurrentHash_misses_difficulty :
  accepted main_ledger batch1 /\
  NewBlock 3 main_ledger batch1 = Some (ledger1, []) /\
  GetRecentBlock ledger1 = block1 /\
  meets_difficulty
    (CreateHash [] (Nonce block1) (PreviousHash block1) (MerkleRoot block1)) = true /\
  CurrentHash block1
  = CreateHash batch1 (Nonce block1) (PreviousHash block1) (MerkleRoot block1) /\
  meets_difficulty (CurrentHash block1) = false.
Proof.
  split; [split; [discriminate | unfold len; cbn; lia] |].
  repeat split; by_evaluation.
Qed.

(** ** Instances of the theorems on the concrete session *)

Lemma NewBlock_links_to_previous_witness :
  exists b, Blocks ledger2 = Blocks ledger1 ++ [b] /\ GetRecentBlock ledger2 = b /\
    PreviousHash b = CurrentHash (GetRecentBlock ledger1) /\
    PreviousHash b = match last (Blocks ledger1) with
                     | Some p => CurrentHash p
                     | None => ""
                     end.
Proof.
  apply (NewBlock_links_to_previous 2 ledger1 ledger2 batch2 []).
  - exact NewBlock_batch2.
  - discriminate.
Defined.

Lemma VerifyChain_after_NewBlocks_witness :
  VerifyChain ledger2 = true /\
  forall i : Z, 0 < i < len (Blocks ledger2) ->
    PreviousHash (at_index (Blocks ledger2) i)
    = CurrentHash (at_index (Blocks ledger2) (i - 1)).
Proof.
  apply (VerifyChain_after_NewBlocks main_ledger ledger2).
  - reflexivity.
  - apply (append_run_NewBlock main_ledger ledger1 ledger2 2 batch2 []).
    + apply (append_run_NewBlock main_ledger main_ledger ledger1 3 batch1 []).
      * apply append_run_start.
      * exact NewBlock_batch1.
    + exact NewBlock_batch2.
Defined.

Lemma ChangeBlock_replaces_one_block_witness :
  exists nonce bc',
    FindValidNonce 2 (MerkleRoot block2_rewritten) (CurrentHash block1) = Some nonce /\
    ChangeBlock 2 ledger2 1 "tip113994" = Some (bc', true) /\
    Blocks bc' !! 1%nat = Some block2_rewritten /\
    (forall j : nat, j <> 1%nat -> Blocks bc' !! j = Blocks ledger2 !! j) /\
    length (Blocks bc') = 2%nat /\
    NumTransactionsPerBlock bc' = 5 /\
    BlockHashMin bc' = "0000" /\
    BlockHashMax bc' = "00000".
Proof.
  destruct (ChangeBlock_replaces_one_block 2 ledger2 1 "tip113994" 1)
    as (nonce & bc' & Hsearch & Hcall & Hat & Hother & Hlen & Hnum & Hmin & Hmax).
  - unfold len. cbn. lia.
  - lia.
  - by_evaluation.
  - assert (Hnonce : nonce = 1).
    { assert (H1 : FindValidNonce 2 (MerkleRoot block2_rewritten) (CurrentHash block1)
                   = Some 1) by by_evaluation.
      change (FindValidNonce 2 (MerkleRoot block2_rewritten) (CurrentHash block1)
              = Some nonce) in Hsearch.
      congruence. }
    subst nonce. exists 1, bc'. split; [by_evaluation |]. split; [exact Hcall |]. split.
    + change (Blocks bc' !! Z.to_nat 1 = Some block2_rewritten).
      rewrite Hat. by_evaluation.
    + split; [exact Hother |]. split; [exact Hlen |].
      split; [exact Hnum |]. split; [exact Hmin | exact Hmax].
Defined.

Lemma ChangeBlock_out_of_range_witness :
  ChangeBlock 0 ledger2 2 "fee62490" = Some (ledger2, false).
Proof.
  apply (ChangeBlock_out_of_range 0 ledger2 2 "fee62490").
  right. unfold len. cbn. lia.
Defined.

(** * Further properties of the code *)

(** ** The nonce search *)

Lemma int_wrap_add_l (x y : Z) : int_wrap (int_wrap x + y) = int_wrap (x + y).
Proof.
  unfold int_wrap. generalize (2 ^ 63) (2 ^ 64). intros h m.
  replace ((x + h) mod m - h + y + h) with ((x + h) mod m + y) by lia.
  rewrite Zplus_mod_idemp_l. f_equal. f_equal. lia.
Qed.

Lemma candidate_wrap (k : nat) (s : Z) :
  candidate k (int_wrap s) = int_wrap (s + Z.of_nat k).
Proof.
  induction k as [| k IH].
  - cbn. f_equal. lia.
  - unfold candidate in *. rewrite Nat.iter_succ, IH. unfold int_incr.
    rewrite int_wrap_add_l. f_equal. lia.
Qed.

Lemma candidate_from_zero (k : nat) : candidate k 0 = int_wrap (Z.of_nat k).
Proof. exact (candidate_wrap k 0). Qed.

Lemma int_wrap_range (x : Z) : - 2 ^ 63 <= int_wrap x < 2 ^ 63.
Proof.
  unfold int_wrap. pose proof (Z.mod_pos_bound (x + 2 ^ 63) (2 ^ 64) ltac:(lia)). lia.
Qed.

Lemma int_wrap_small (x : Z) : - 2 ^ 63 <= x < 2 ^ 63 -> int_wrap x = x.
Proof. intros Hx. unfold int_wrap. rewrite Z.mod_small; lia. Qed.

Lemma FindValidNonce_from_first (mr ph : string) (fuel : nat) (start : Z) (k : nat) :
  (k < fuel)%nat ->
  meets_difficulty (CreateHash [] (candidate k start) ph mr) = true ->
  (forall j, (j < k)%nat ->
     meets_difficulty (CreateHash [] (candidate j start) ph mr) = false) ->
  FindValidNonce_from fuel start mr ph = Some (candidate k start).
Proof.
  revert start k. induction fuel as [| fuel IH]; intros start k Hk Hok Hmin; [lia |].
  rewrite FindValidNonce_from_step. destruct k as [| k].
  - change (candidate 0 start) with start in Hok. now rewrite Hok.
  - pose proof (Hmin 0%nat ltac:(lia)) as H0.
    change (candidate 0 start) with start in H0. rewrite H0.
    rewrite candidate_S in *. apply IH; [lia | assumption |].
    intros j Hj. rewrite <- candidate_S. apply Hmin. lia.
Qed.

(** X1: the search returns a nonce exactly when that nonce is the first
    candidate, counting up from 0, whose hash over the empty transaction
    list starts with four zeros, and the fuel reaches it. *)
Theorem FindValidNonce_first_valid (fuel : nat) (merkleRoot previousHash : string)
    (nonce : Z) :
  FindValidNonce fuel merkleRoot previousHash = Some nonce <->
  exists k : nat,
    (k < fuel)%nat /\ nonce = candidate k 0 /\
    HasPrefix (CreateHash [] nonce previousHash merkleRoot) "0000" = true /\
    forall j : nat, (j < k)%nat ->
      HasPrefix (CreateHash [] (candidate j 0) previousHash merkleRoot) "0000" = false.
Proof.
  unfold FindValidNonce. split.
  - intros Hs. exact (FindValidNonce_from_sound _ _ _ _ _ Hs).
  - intros (k & Hk & -> & Hok & Hmin). now apply FindValidNonce_from_first.
Qed.

(** X2: the nonce the search returns is the number [k] of candidates that
    failed before it, as the 64-bit variable holds it: the candidates are
    the wrapped values of 0, 1, ..., the first [k] of them fail, the next
    one passes and is returned; below 2^63 failures nothing wraps and the
    nonce is [k] itself. *)
Theorem FindValidNonce_counts_failures (fuel : nat) (merkleRoot previousHash : string)
    (nonce : Z) :
  FindValidNonce fuel merkleRoot previousHash = Some nonce ->
  exists k : nat,
    (k < fuel)%nat /\
    (forall j : nat, (j < k)%nat ->
       HasPrefix (CreateHash [] (int_wrap (Z.of_nat j)) previousHash merkleRoot) "0000"
       = false) /\
    HasPrefix (CreateHash [] (int_wrap (Z.of_nat k)) previousHash merkleRoot) "0000" = true /\
    nonce = int_wrap (Z.of_nat k) /\
    - 2 ^ 63 <= nonce < 2 ^ 63 /\
    (Z.of_nat k < 2 ^ 63 -> nonce = Z.of_nat k).
Proof.
  intros Hs. apply FindValidNonce_from_sound in Hs as (k & Hk & -> & Hok & Hmin).
  exists k. rewrite candidate_from_zero in *. split; [assumption |]. split.
  - intros j Hj. rewrite <- candidate_from_zero. now apply Hmin.
  - split; [exact Hok |]. split; [reflexivity |]. split; [apply int_wrap_range |].
    intros Hsmall. apply int_wrap_small. lia.
Qed.

Lemma FindValidNonce_counts_failures_witness :
  exists k : nat,
    (k < 3)%nat /\
    (forall j : nat, (j < k)%nat ->
       HasPrefix (CreateHash [] (int_wrap (Z.of_nat j)) "" (MerkleRoot block1)) "0000"
       = false) /\
    HasPrefix (CreateHash [] (int_wrap (Z.of_nat k)) "" (MerkleRoot block1)) "0000" = true /\
    2 = int_wrap (Z.of_nat k) /\
    - 2 ^ 63 <= 2 < 2 ^ 63 /\
    (Z.of_nat k < 2 ^ 63 -> 2 = Z.of_nat k).
Proof.
  apply (FindValidNonce_counts_failures 3 (MerkleRoot block1) "" 2). by_evaluation.
Defined.

(** ** The levels of the Merkle tree *)

(** X3: the digest at position [i] of the next level is the hash of
    transaction [2i] followed by transaction [2i+1], or by nothing when
    [2i] is the last index. *)
Theorem merkle_level_lookup (transactions : list string) (i : nat) :
  (2 * i < length transactions)%nat ->
  merkle_level transactions !! i
  = Some (SHA256.sum256_hex
            (nth (2 * i) transactions "" +:+ nth (2 * i + 1) transactions "")).
Proof.
  revert i. induction transactions as [| x | x y rest IH] using list_pair_ind;
    intros i Hi; cbn [length] in Hi.
  - lia.
  - destruct i as [| i]; [reflexivity | lia].
  - destruct i as [| i]; [reflexivity |].
    cbn [merkle_level]. change ((SHA256.sum256_hex (x +:+ y) :: merkle_level rest) !! S i)
      with (merkle_level rest !! i).
    rewrite IH by lia.
    replace (2 * S i)%nat with (S (S (2 * i))) by lia.
    replace (S (S (2 * i)) + 1)%nat with (S (S (2 * i + 1))) by lia.
    reflexivity.
Qed.

Lemma merkle_level_lookup_witness :
  merkle_level batch1 !! 2%nat
  = Some (SHA256.sum256_hex (nth (2 * 2) batch1 "" +:+ nth (2 * 2 + 1) batch1 "")).
Proof. apply (merkle_level_lookup batch1 2). cbn. lia. Defined.

Lemma merkle_level_odd_padding (transactions : list string) :
  Nat.odd (length transactions) = true ->
  merkle_level (transactions ++ [""]) = merkle_level transactions.
Proof.
  induction transactions as [| x | x y rest IH] using list_pair_ind; intros Hodd.
  - discriminate.
  - reflexivity.
  - cbn [app merkle_level]. f_equal. apply IH.
    cbn [length] in Hodd. now rewrite Nat.odd_succ_succ in Hodd.
Qed.

(** X4: the root does not tell an odd batch of three or more transactions
    from the same batch followed by one empty transaction. *)
Theorem CreateMerkleRoot_odd_padding (transactions : list string) :
  Nat.odd (length transactions) = true ->
  (3 <= length transactions)%nat ->
  CreateMerkleRoot (transactions ++ [""]) = CreateMerkleRoot transactions.
Proof.
  intros Hodd Hlen.
  rewrite (CreateMerkleRoot_pairs (transactions ++ [""])) by (rewrite length_app; cbn; lia).
  rewrite (CreateMerkleRoot_pairs transactions) by lia.
  now rewrite merkle_level_odd_padding.
Qed.

Lemma CreateMerkleRoot_odd_padding_witness :
  CreateMerkleRoot (batch1 ++ [""]) = CreateMerkleRoot batch1.
Proof. apply (CreateMerkleRoot_odd_padding batch1); [reflexivity | cbn; lia]. Defined.

(** X5: the root does not tell where the first transaction of a pair ends:
    moving a piece from the end of the first to the start of the second
    leaves it unchanged. *)
Theorem CreateMerkleRoot_pair_boundary (a b c : string) (rest : list string) :
  CreateMerkleRoot ((a +:+ b) :: c :: rest) = CreateMerkleRoot (a :: (b +:+ c) :: rest).
Proof.
  rewrite (CreateMerkleRoot_pairs ((a +:+ b) :: c :: rest)) by (cbn; lia).
  rewrite (CreateMerkleRoot_pairs (a :: (b +:+ c) :: rest)) by (cbn; lia).
  cbn [merkle_level]. now rewrite append_assoc.
Qed.

(** ** The shape of a digest *)

Lemma hex_digit_lower (x : Z) : is_lower_hex (SHA256.hex_digit (Z.land x 0xF)) = true.
Proof.
  change 0xF with (Z.ones 4). rewrite Z.land_ones by lia.
  pose proof (Z.mod_pos_bound x (2 ^ 4) ltac:(lia)) as Hv.
  remember (x mod 2 ^ 4) as v eqn:Ev. clear Ev.
  assert (Hcases : v = 0 \/ v = 1 \/ v = 2 \/ v = 3 \/ v = 4 \/ v = 5 \/ v = 6 \/ v = 7 \/
                   v = 8 \/ v = 9 \/ v = 10 \/ v = 11 \/ v = 12 \/ v = 13 \/ v = 14 \/
                   v = 15) by lia.
  repeat (destruct Hcases as [-> | Hcases]; [reflexivity |]). subst v. reflexivity.
Qed.

Lemma hex_of_shape (digits : nat) (x : Z) (tail : string) :
  String.length (SHA256.hex_of digits x tail) = (digits + String.length tail)%nat /\
  (forallb is_lower_hex (list_ascii_of_string tail) = true ->
   forallb is_lower_hex (list_ascii_of_string (SHA256.hex_of digits x tail)) = true).
Proof.
  revert x tail. induction digits as [| d IH]; intros x tail; [now split |].
  cbn [SHA256.hex_of].
  destruct (IH (Z.shiftr x 4) (String (SHA256.hex_digit (Z.land x 0xF)) tail)) as [Hlen Hhex].
  split.
  - rewrite Hlen. cbn [String.length]. lia.
  - intros Htail. apply Hhex. cbn [list_ascii_of_string forallb].
    now rewrite hex_digit_lower, Htail.
Qed.

Lemma hex_of_words_shape (ws : list Z) :
  String.length (SHA256.hex_of_words ws) = (8 * length ws)%nat /\
  forallb is_lower_hex (list_ascii_of_string (SHA256.hex_of_words ws)) = true.
Proof.
  induction ws as [| w ws [IHlen IHhex]]; [now split |].
  unfold SHA256.hex_of_words in *. cbn [fold_right].
  destruct (hex_of_shape 8 w (fold_right (fun w acc => SHA256.hex_of 8 w acc) "" ws))
    as [Hlen Hhex].
  split; [rewrite Hlen, IHlen; cbn [length]; lia | now apply Hhex].
Qed.

Lemma compress_length (h block : list Z) :
  length h = 8%nat -> length (SHA256.compress h block) = 8%nat.
Proof.
  intros Hh. unfold SHA256.compress. cbv zeta. rewrite length_zip_with, Hh. reflexivity.
Qed.

Lemma digest_words_length (msg : list Z) : length (SHA256.digest_words msg) = 8%nat.
Proof.
  unfold SHA256.digest_words. cbv zeta.
  generalize (SHA256.chunks16 (length (SHA256.words_of_bytes (SHA256.pad msg)))
                (SHA256.words_of_bytes (SHA256.pad msg))).
  assert (H0 : length SHA256.H0 = 8%nat) by reflexivity. revert H0.
  generalize SHA256.H0. intros h Hh chunks. revert h Hh.
  induction chunks as [| c chunks IH]; intros h Hh; [exact Hh |].
  cbn [fold_left]. apply IH. now apply compress_length.
Qed.

Lemma sum256_hex_digest (s : string) : hex_digest (SHA256.sum256_hex s).
Proof.
  unfold hex_digest, SHA256.sum256_hex.
  destruct (hex_of_words_shape (SHA256.digest_words (SHA256.bytes_of_string s)))
    as [Hlen Hhex].
  rewrite digest_words_length in Hlen. now split.
Qed.

(** X6: whatever its arguments, [CreateHash] returns 64 characters, all of
    them lowercase hexadecimal digits. *)
Theorem CreateHash_hex_digest (transactions : list string) (nonce : Z)
    (previousHash merkleRoot : string) :
  String.length (CreateHash transactions nonce previousHash merkleRoot) = 64%nat /\
  forallb is_lower_hex
    (list_ascii_of_string (CreateHash transactions nonce previousHash merkleRoot)) = true.
Proof. unfold CreateHash. cbv zeta. apply sum256_hex_digest. Qed.

Lemma merkle_level_digests (transactions : list string) :
  Forall hex_digest (merkle_level transactions).
Proof.
  induction transactions as [| x | x y rest IH] using list_pair_ind; cbn [merkle_level].
  - constructor.
  - constructor; [apply sum256_hex_digest | constructor].
  - constructor; [apply sum256_hex_digest | assumption].
Qed.

Lemma CreateMerkleRoot_of_digests (transactions : list string) :
  transactions <> [] ->
  Forall hex_digest transactions ->
  hex_digest (CreateMerkleRoot transactions).
Proof.
  funelim (CreateMerkleRoot transactions); intros Hne Hall.
  - congruence.
  - now inversion Hall.
  - match goal with IH : _ -> _ -> hex_digest _ |- _ => apply IH end.
    + cbn [merkle_level]. discriminate.
    + exact (merkle_level_digests (x :: y :: rest)).
Qed.

(** X7: for two or more transactions the Merkle root is a digest, 64
    lowercase hexadecimal characters (for a single one it is the
    transaction itself, whatever its shape). *)
Theorem CreateMerkleRoot_hex_digest (transactions : list string) :
  (2 <= length transactions)%nat ->
  String.length (CreateMerkleRoot transactions) = 64%nat /\
  forallb is_lower_hex (list_ascii_of_string (CreateMerkleRoot transactions)) = true.
Proof.
  intros Hlen. rewrite (CreateMerkleRoot_pairs _ Hlen).
  apply CreateMerkleRoot_of_digests; [| apply merkle_level_digests].
  destruct transactions as [| x [| y rest]]; cbn [length] in Hlen; try lia.
  cbn [merkle_level]. discriminate.
Qed.

Lemma CreateMerkleRoot_hex_digest_witness :
  String.length (CreateMerkleRoot batch1) = 64%nat /\
  forallb is_lower_hex (list_ascii_of_string (CreateMerkleRoot batch1)) = true.
Proof. apply (CreateMerkleRoot_hex_digest batch1). cbn. lia. Defined.

(** ** What the hashed message does not separate *)

Lemma fmt_v_merge (x y : string) (rest : list string) :
  fmt_v (x :: y :: rest) = fmt_v ((x +:+ " " +:+ y) :: rest).
Proof.
  unfold fmt_v. f_equal. f_equal. destruct rest as [| z rest]; [reflexivity |].
  change (x +:+ " " +:+ y +:+ " " +:+ join_blank (z :: rest)
          = (x +:+ " " +:+ y) +:+ " " +:+ join_blank (z :: rest)).
  now rewrite !append_assoc.
Qed.

(** X8: [CreateHash] does not tell two transactions from the single
    transaction made of the two with a blank between them, and it depends
    on the previous hash and the Merkle root only through their
    concatenation. *)
Theorem CreateHash_boundaries (x y : string) (rest : list string) (nonce : Z)
    (p q m : string) :
  CreateHash (x :: y :: rest) nonce p m = CreateHash ((x +:+ " " +:+ y) :: rest) nonce p m /\
  CreateHash rest nonce (p +:+ q) m = CreateHash rest nonce p (q +:+ m).
Proof.
  unfold CreateHash. cbv zeta. split.
  - now rewrite fmt_v_merge.
  - now rewrite append_assoc.
Qed.

(** ** Links *)

Lemma at_index_insert_eq (blocks : list Block) (i : Z) (b : Block) :
  0 <= i < len blocks -> at_index (<[Z.to_nat i := b]> blocks) i = b.
Proof.
  intros Hi. unfold at_index, len in *. rewrite list_lookup_insert_eq by lia. reflexivity.
Qed.

Lemma at_index_insert_ne (blocks : list Block) (i j : Z) (b : Block) :
  0 <= i -> 0 <= j -> j <> i -> at_index (<[Z.to_nat i := b]> blocks) j = at_index blocks j.
Proof.
  intros Hi Hj Hne. unfold at_index. rewrite list_lookup_insert_ne by lia. reflexivity.
Qed.

Lemma linked_link_ok (blocks : list Block) :
  linked blocks <-> forall j : Z, 0 < j < len blocks -> link_ok blocks j.
Proof.
  unfold linked, link_ok. split.
  - intros Hl j Hj.
    pose proof (at_index_lookup blocks j ltac:(lia)) as Hb.
    pose proof (at_index_lookup blocks (j - 1) ltac:(lia)) as Hp.
    destruct (Hl (Z.to_nat j) _ ltac:(lia) Hb) as (p & Hp' & Heq).
    replace (Z.to_nat j - 1)%nat with (Z.to_nat (j - 1)) in Hp' by lia. congruence.
  - intros Hl i b Hi Hb.
    assert (Hlt : (i < length blocks)%nat) by (eapply lookup_lt_Some; eauto).
    unfold len in Hl. specialize (Hl (Z.of_nat i) ltac:(lia)).
    destruct (lookup_lt_is_Some_2 blocks (i - 1)) as [p Hp]; [lia |].
    exists p. split; [assumption |].
    rewrite (at_index_of_lookup _ _ _ Hb) in Hl.
    replace (Z.of_nat i - 1) with (Z.of_nat (i - 1)) in Hl by lia.
    now rewrite (at_index_of_lookup _ _ _ Hp) in Hl.
Qed.

Lemma VerifyChain_link_ok (bc : Blockchain) :
  VerifyChain bc = true <-> forall j : Z, 0 < j < len (Blocks bc) -> link_ok (Blocks bc) j.
Proof. rewrite VerifyChain_linked. apply linked_link_ok. Qed.

(** X9: [VerifyChain] returns true exactly when every block after the
    first stores, as [PreviousHash], the [CurrentHash] of the block before
    it; in particular it does on a ledger of at most one block. *)
Theorem VerifyChain_iff_links (bc : Blockchain) :
  (VerifyChain bc = true <->
   forall j : Z, 0 < j < len (Blocks bc) ->
     PreviousHash (at_index (Blocks bc) j) = CurrentHash (at_index (Blocks bc) (j - 1))) /\
  (len (Blocks bc) <= 1 -> VerifyChain bc = true).
Proof.
  split; [exact (VerifyChain_link_ok bc) |].
  intros Hlen. apply VerifyChain_link_ok. intros j Hj. lia.
Qed.

Lemma forallb_pointwise {A : Type} (f g : A -> bool) (l : list A) :
  (forall x, f x = g x) -> forallb f l = forallb g l.
Proof.
  intros Hfg. induction l as [| x l IH]; [reflexivity |].
  cbn [forallb]. now rewrite Hfg, IH.
Qed.

Lemma hashes_at_index (l1 l2 : list Block) (n : nat) :
  map (fun b => (PreviousHash b, CurrentHash b)) l1
  = map (fun b => (PreviousHash b, CurrentHash b)) l2 ->
  PreviousHash (default Block_zero (l1 !! n)) = PreviousHash (default Block_zero (l2 !! n)) /\
  CurrentHash (default Block_zero (l1 !! n)) = CurrentHash (default Block_zero (l2 !! n)).
Proof.
  revert l2 n. induction l1 as [| b1 l1 IH]; intros [| b2 l2] n Hmap; try discriminate.
  - now split.
  - cbn [map] in Hmap. inversion Hmap as [[Hp Hc Hrest]].
    destruct n as [| n]; [now split | exact (IH l2 n Hrest)].
Qed.

(** X10: the verdict of [VerifyChain] depends on the [PreviousHash] and
    [CurrentHash] fields alone: two ledgers whose blocks carry the same two
    hashes get the same verdict, whatever their transactions, nonces and
    Merkle roots. *)
Theorem VerifyChain_reads_hashes_only (bc1 bc2 : Blockchain) :
  map (fun b => (PreviousHash b, CurrentHash b)) (Blocks bc1)
  = map (fun b => (PreviousHash b, CurrentHash b)) (Blocks bc2) ->
  VerifyChain bc1 = VerifyChain bc2.
Proof.
  intros Hmap.
  assert (Hlen : length (Blocks bc1) = length (Blocks bc2)).
  { rewrite <- (length_map (fun b => (PreviousHash b, CurrentHash b)) (Blocks bc1)), Hmap.
    apply length_map. }
  unfold VerifyChain. rewrite Hlen. apply forallb_pointwise. intros i.
  unfold at_index.
  destruct (hashes_at_index _ _ (Z.to_nat (Z.of_nat i)) Hmap) as [-> _].
  destruct (hashes_at_index _ _ (Z.to_nat (Z.of_nat i - 1)) Hmap) as [_ ->].
  reflexivity.
Qed.

Lemma VerifyChain_reads_hashes_only_witness :
  VerifyChain (mkBlockchain [mkBlock [] 0 "" (CurrentHash block1) "";
                             mkBlock [] 0 (PreviousHash block2) (CurrentHash block2) ""]
                            1 "" "")
  = VerifyChain ledger2.
Proof.
  apply (VerifyChain_reads_hashes_only
           (mkBlockchain [mkBlock [] 0 "" (CurrentHash block1) "";
                          mkBlock [] 0 (PreviousHash block2) (CurrentHash block2) ""]
                         1 "" "")
           ledger2).
  reflexivity.
Defined.

(** ** NewBlock and the blocks already there *)

Lemma linked_snoc_inv (blocks : list Block) (b : Block) :
  linked (blocks ++ [b]) -> linked blocks.
Proof.
  intros Hl i c Hi Hc.
  assert (Hlt : (i < length blocks)%nat) by (eapply lookup_lt_Some; eauto).
  destruct (Hl i c Hi (lookup_app_l_Some _ _ _ _ Hc)) as (p & Hp & Heq).
  exists p. split; [| assumption]. rewrite lookup_app_l in Hp by lia. exact Hp.
Qed.

(** X11: [NewBlock] keeps every block already in the ledger at its index
    and keeps the configuration; it appends one block, holding the batch
    and its Merkle root, exactly when the batch is not empty and reaches
    [NumTransactionsPerBlock]. *)
Theorem NewBlock_frame (fuel : nat) (bc bc' : Blockchain) (transactions : list string)
    (out : list string) :
  NewBlock fuel bc transactions = Some (bc', out) ->
  NumTransactionsPerBlock bc' = NumTransactionsPerBlock bc /\
  BlockHashMin bc' = BlockHashMin bc /\
  BlockHashMax bc' = BlockHashMax bc /\
  (forall (i : nat) (b : Block), Blocks bc !! i = Some b -> Blocks bc' !! i = Some b) /\
  ((transactions <> [] /\ NumTransactionsPerBlock bc <= len transactions) /\
   (exists b, Blocks bc' = Blocks bc ++ [b] /\ Transaction b = transactions /\
              MerkleRoot b = CreateMerkleRoot transactions)
   \/
   (transactions = [] \/ len transactions < NumTransactionsPerBlock bc) /\
   Blocks bc' = Blocks bc).
Proof.
  intros Hnew.
  destruct (NewBlock_inv _ _ _ _ _ Hnew) as [[-> Hna] | (nonce & Hacc & _ & -> & _)].
  - repeat split; try reflexivity; [trivial |]. right. split; [| reflexivity].
    destruct transactions as [| x l]; [now left | right].
    destruct (Z_lt_ge_dec (len (x :: l)) (NumTransactionsPerBlock bc)); [assumption |].
    exfalso. apply Hna. split; [discriminate | lia].
  - cbn [with_Blocks NumTransactionsPerBlock BlockHashMin BlockHashMax Blocks].
    repeat split; try reflexivity.
    + intros i b Hb. now apply lookup_app_l_Some.
    + left. split; [exact Hacc |]. eexists. split; [reflexivity |]. now split.
Qed.

Lemma NewBlock_frame_witness :
  NumTransactionsPerBlock ledger2 = NumTransactionsPerBlock ledger1 /\
  BlockHashMin ledger2 = BlockHashMin ledger1 /\
  BlockHashMax ledger2 = BlockHashMax ledger1 /\
  (forall (i : nat) (b : Block),
     Blocks ledger1 !! i = Some b -> Blocks ledger2 !! i = Some b) /\
  ((batch2 <> [] /\ NumTransactionsPerBlock ledger1 <= len batch2) /\
   (exists b, Blocks ledger2 = Blocks ledger1 ++ [b] /\ Transaction b = batch2 /\
              MerkleRoot b = CreateMerkleRoot batch2)
   \/
   (batch2 = [] \/ len batch2 < NumTransactionsPerBlock ledger1) /\
   Blocks ledger2 = Blocks ledger1).
Proof. exact (NewBlock_frame 2 ledger1 ledger2 batch2 [] NewBlock_batch2). Defined.

(** X12: [NewBlock] never changes the verdict of [VerifyChain]: the block
    it appends is linked to the last one, so a valid chain stays valid and
    a broken one stays broken. *)
Theorem VerifyChain_unchanged_by_NewBlock (fuel : nat) (bc bc' : Blockchain)
    (transactions : list string) (out : list string) :
  NewBlock fuel bc transactions = Some (bc', out) ->
  VerifyChain bc' = VerifyChain bc.
Proof.
  intros Hnew.
  destruct (NewBlock_inv _ _ _ _ _ Hnew) as [[-> _] | (nonce & _ & _ & -> & _)];
    [reflexivity |].
  destruct (VerifyChain bc) eqn:Hv.
  - apply VerifyChain_linked. cbn [with_Blocks Blocks].
    apply linked_snoc; [now apply VerifyChain_linked |].
    cbn [mined_block PreviousHash]. now rewrite GetRecentBlock_last.
  - match goal with |- ?v = false => destruct v eqn:Hv' end; [| reflexivity].
    apply VerifyChain_linked in Hv'. cbn [with_Blocks Blocks] in Hv'.
    apply linked_snoc_inv, VerifyChain_linked in Hv'. congruence.
Qed.

Lemma VerifyChain_unchanged_by_NewBlock_witness :
  VerifyChain ledger2 = VerifyChain ledger1.
Proof.
  exact (VerifyChain_unchanged_by_NewBlock 2 ledger1 ledger2 batch2 [] NewBlock_batch2).
Defined.

(** ** Invariants of the ledger *)

Lemma mined_block_consistent (fuel : nat) (bc : Blockchain) (transactions : list string)
    (nonce : Z) :
  transactions <> [] ->
  FindValidNonce fuel (CreateMerkleRoot transactions) (CurrentHash (GetRecentBlock bc))
  = Some nonce ->
  block_consistent (mined_block bc transactions nonce).
Proof.
  intros Hne Hs. unfold block_consistent, mined_block.
  cbn [Transaction Nonce PreviousHash CurrentHash MerkleRoot].
  repeat split; try assumption.
  apply FindValidNonce_from_sound in Hs as (k & _ & _ & Hok & _). exact Hok.
Qed.

Lemma rebuilt_block_consistent (fuel : nat) (bc : Blockchain) (index : Z) (t : string)
    (nonce : Z) :
  FindValidNonce fuel
    (CreateMerkleRoot (Transaction (at_index (Blocks bc) index) ++ [t]))
    (if index =? 0 then "" else CurrentHash (at_index (Blocks bc) (index - 1)))
  = Some nonce ->
  block_consistent (rebuilt_block bc index t nonce).
Proof.
  intros Hs. unfold block_consistent, rebuilt_block.
  cbn [Transaction Nonce PreviousHash CurrentHash MerkleRoot].
  repeat split.
  - intros Hnil. now apply app_eq_nil in Hnil as [_ Hnil].
  - apply FindValidNonce_from_sound in Hs as (k & _ & _ & Hok & _). exact Hok.
Qed.

Lemma ChangeBlock_outside (fuel : nat) (bc : Blockchain) (index : Z) (t : string) :
  index < 0 \/ index >= len (Blocks bc) ->
  ChangeBlock fuel bc index t = Some (bc, false).
Proof.
  intros Hout. unfold ChangeBlock.
  destruct (Z.geb_spec index 0); [| reflexivity].
  destruct (Z.ltb_spec index (len (Blocks bc))); [lia | reflexivity].
Qed.

Lemma ChangeBlock_inv (fuel : nat) (bc bc' : Blockchain) (index : Z) (t : string)
    (ok : bool) :
  ChangeBlock fuel bc index t = Some (bc', ok) ->
  (bc' = bc /\ ok = false /\ (index < 0 \/ index >= len (Blocks bc))) \/
  (0 <= index < len (Blocks bc) /\ ok = true /\
   exists nonce,
     FindValidNonce fuel
       (CreateMerkleRoot (Transaction (at_index (Blocks bc) index) ++ [t]))
       (if index =? 0 then "" else CurrentHash (at_index (Blocks bc) (index - 1)))
     = Some nonce /\
     bc' = with_Blocks bc (<[Z.to_nat index := rebuilt_block bc index t nonce]> (Blocks bc))).
Proof.
  intros Hcb.
  destruct (Z_lt_ge_dec index 0) as [Hneg | Hpos];
    [| destruct (Z_lt_ge_dec index (len (Blocks bc))) as [Hin | Hout]].
  - left. rewrite ChangeBlock_outside in Hcb by now left.
    inversion Hcb; subst. split; [reflexivity | split; [reflexivity | now left]].
  - right. assert (Hrange : 0 <= index < len (Blocks bc)) by lia.
    destruct (ChangeBlock_returns _ _ _ _ _ _ Hrange Hcb) as (nonce & Hs & -> & ->).
    repeat split; try lia. eauto.
  - left. rewrite ChangeBlock_outside in Hcb by now right.
    inversion Hcb; subst. split; [reflexivity | split; [reflexivity | now right]].
Qed.

Lemma ledger_run_consistent (bc0 bc : Blockchain) :
  Forall block_consistent (Blocks bc0) ->
  ledger_run bc0 bc ->
  Forall block_consistent (Blocks bc).
Proof.
  intros H0. induction 1
    as [| bc1 bc2 fuel txs out _ IH Hnew | bc1 bc2 fuel index t ok _ IH Hcb
        | bc1 n _ IH | bc1 mn mx _ IH].
  - assumption.
  - destruct (NewBlock_inv _ _ _ _ _ Hnew) as [[-> _] | (nonce & [Hne _] & Hs & -> & _)];
      [assumption |].
    cbn [with_Blocks Blocks]. apply Forall_app. split; [assumption |].
    constructor; [| constructor]. now apply (mined_block_consistent fuel).
  - destruct (ChangeBlock_inv _ _ _ _ _ _ Hcb)
      as [(-> & _ & _) | (_ & _ & nonce & Hs & ->)]; [assumption |].
    cbn [with_Blocks Blocks]. apply Forall_insert; [assumption |].
    now apply (rebuilt_block_consistent fuel).
  - now rewrite setNumber_Blocks.
  - assumption.
Qed.

(** X13: on every ledger reached from an empty one by the operations of
    the program, each block has at least one transaction, its Merkle root
    is the root of its transactions, its [CurrentHash] is [CreateHash] of
    its four other fields, and its nonce meets the difficulty for the hash
    taken over the empty transaction list. *)
Theorem reachable_blocks_consistent (bc0 bc : Blockchain) :
  Blocks bc0 = [] ->
  ledger_run bc0 bc ->
  forall (i : nat) (b : Block), Blocks bc !! i = Some b ->
    Transaction b <> [] /\
    MerkleRoot b = CreateMerkleRoot (Transaction b) /\
    CurrentHash b = CreateHash (Transaction b) (Nonce b) (PreviousHash b) (MerkleRoot b) /\
    HasPrefix (CreateHash [] (Nonce b) (PreviousHash b) (MerkleRoot b)) "0000" = true.
Proof.
  intros Hempty Hrun.
  assert (Hall : Forall block_consistent (Blocks bc)).
  { apply (ledger_run_consistent bc0); [rewrite Hempty; constructor | assumption]. }
  intros i b Hb. exact (proj1 (Forall_lookup _ _) Hall i b Hb).
Qed.

Lemma ledger_run_session : ledger_run main_ledger ledger2_relinked.
Proof.
  apply (ledger_run_ChangeBlock main_ledger ledger2_rewritten0 ledger2_relinked
           2 1 "fix1042" true).
  - apply (ledger_run_ChangeBlock main_ledger ledger2 ledger2_rewritten0
             2 0 "fee62490" true).
    + apply (ledger_run_NewBlock main_ledger ledger1 ledger2 2 batch2 []).
      * apply (ledger_run_NewBlock main_ledger main_ledger ledger1 3 batch1 []).
        -- apply ledger_run_start.
        -- exact NewBlock_batch1.
      * exact NewBlock_batch2.
    + exact ChangeBlock_ledger2_0.
  - by_evaluation.
Defined.

Lemma reachable_blocks_consistent_witness :
  Transaction block2_relinked <> [] /\
  MerkleRoot block2_relinked = CreateMerkleRoot (Transaction block2_relinked) /\
  CurrentHash block2_relinked
  = CreateHash (Transaction block2_relinked) (Nonce block2_relinked)
      (PreviousHash block2_relinked) (MerkleRoot block2_relinked) /\
  HasPrefix (CreateHash [] (Nonce block2_relinked) (PreviousHash block2_relinked)
               (MerkleRoot block2_relinked)) "0000" = true.
Proof.
  exact (reachable_blocks_consistent main_ledger ledger2_relinked eq_refl
           ledger_run_session 1%nat block2_relinked eq_refl).
Defined.

Lemma ledger_run_positive (bc0 bc : Blockchain) :
  1 <= NumTransactionsPerBlock bc0 ->
  ledger_run bc0 bc ->
  1 <= NumTransactionsPerBlock bc.
Proof.
  intros H0. induction 1
    as [| bc1 bc2 fuel txs out _ IH Hnew | bc1 bc2 fuel index t ok _ IH Hcb
        | bc1 n _ IH | bc1 mn mx _ IH].
  - assumption.
  - destruct (NewBlock_inv _ _ _ _ _ Hnew) as [[-> _] | (nonce & _ & _ & -> & _)];
      assumption.
  - destruct (ChangeBlock_inv _ _ _ _ _ _ Hcb)
      as [(-> & _ & _) | (_ & _ & nonce & _ & ->)]; assumption.
  - unfold setNumberOfTransactionsPerBlock.
    destruct (Z.geb_spec n 1); cbn [fst NumTransactionsPerBlock]; [lia | assumption].
  - assumption.
Qed.

(** X14: no operation brings [NumTransactionsPerBlock] below 1: a ledger
    that starts with at least 1 keeps at least 1, because the setter
    rejects smaller values and nothing else writes the field. *)
Theorem NumTransactionsPerBlock_stays_positive (bc0 bc : Blockchain) :
  1 <= NumTransactionsPerBlock bc0 ->
  ledger_run bc0 bc ->
  1 <= NumTransactionsPerBlock bc.
Proof. exact (ledger_run_positive bc0 bc). Qed.

Lemma NumTransactionsPerBlock_stays_positive_witness :
  1 <= NumTransactionsPerBlock
         (fst (setNumberOfTransactionsPerBlock ledger2_relinked 0)).
Proof.
  apply (NumTransactionsPerBlock_stays_positive main_ledger).
  - cbn. lia.
  - apply ledger_run_setNumber. exact ledger_run_session.
Defined.

(** ** ChangeBlock and the links *)

Lemma ChangeBlock_links (fuel : nat) (bc bc' : Blockchain) (index : Z) (t : string)
    (ok : bool) :
  0 <= index < len (Blocks bc) ->
  ChangeBlock fuel bc index t = Some (bc', ok) ->
  len (Blocks bc') = len (Blocks bc) /\
  (0 < index -> link_ok (Blocks bc') index) /\
  (forall j : Z, 0 < j -> j <> index -> j <> index + 1 ->
     (link_ok (Blocks bc') j <-> link_ok (Blocks bc) j)).
Proof.
  intros Hin Hcb.
  destruct (ChangeBlock_returns _ _ _ _ _ _ Hin Hcb) as (nonce & _ & -> & _).
  cbn [with_Blocks Blocks]. unfold link_ok. split; [| split].
  - unfold len. now rewrite length_insert.
  - intros Hpos. rewrite at_index_insert_eq by assumption.
    rewrite at_index_insert_ne by lia.
    unfold rebuilt_block. cbn [PreviousHash].
    destruct (Z.eqb_spec index 0); [lia | reflexivity].
  - intros j Hj Hne Hne'. rewrite !at_index_insert_ne by lia. reflexivity.
Qed.

(** X15: a successful [ChangeBlock] on [index] makes the rewritten block
    point to the block before it, keeps the number of blocks, and leaves
    every other link as it was, except the link from the block after
    [index]. *)
Theorem ChangeBlock_repairs_own_link (fuel : nat) (bc bc' : Blockchain) (index : Z)
    (newTransaction : string) :
  0 <= index < len (Blocks bc) ->
  ChangeBlock fuel bc index newTransaction = Some (bc', true) ->
  len (Blocks bc') = len (Blocks bc) /\
  (0 < index ->
   PreviousHash (at_index (Blocks bc') index)
   = CurrentHash (at_index (Blocks bc') (index - 1))) /\
  (forall j : Z, 0 < j -> j <> index -> j <> index + 1 ->
     (PreviousHash (at_index (Blocks bc') j) = CurrentHash (at_index (Blocks bc') (j - 1))
      <->
      PreviousHash (at_index (Blocks bc) j) = CurrentHash (at_index (Blocks bc) (j - 1)))).
Proof. intros Hin Hcb. exact (ChangeBlock_links _ _ _ _ _ _ Hin Hcb). Qed.

Lemma ChangeBlock_repairs_own_link_witness :
  len (Blocks ledger2_relinked) = len (Blocks ledger2_rewritten0) /\
  (0 < 1 ->
   PreviousHash (at_index (Blocks ledger2_relinked) 1)
   = CurrentHash (at_index (Blocks ledger2_relinked) (1 - 1))) /\
  (forall j : Z, 0 < j -> j <> 1 -> j <> 1 + 1 ->
     (PreviousHash (at_index (Blocks ledger2_relinked) j)
      = CurrentHash (at_index (Blocks ledger2_relinked) (j - 1))
      <->
      PreviousHash (at_index (Blocks ledger2_rewritten0) j)
      = CurrentHash (at_index (Blocks ledger2_rewritten0) (j - 1)))).
Proof.
  apply (ChangeBlock_repairs_own_link 2 ledger2_rewritten0 ledger2_relinked 1 "fix1042").
  - unfold len. cbn. lia.
  - by_evaluation.
Defined.

(** X16: on a chain that verifies, [ChangeBlock] on the last block returns
    true as soon as the fuel covers a nonce that meets the difficulty, and
    leaves a chain that verifies. *)
Theorem VerifyChain_after_ChangeBlock_last (fuel : nat) (bc : Blockchain)
    (newTransaction : string) (k : nat) :
  let index := len (Blocks bc) - 1 in
  let transactions := Transaction (at_index (Blocks bc) index) ++ [newTransaction] in
  let merkleRoot := CreateMerkleRoot transactions in
  let previousHash :=
    if index =? 0 then "" else CurrentHash (at_index (Blocks bc) (index - 1)) in
  VerifyChain bc = true ->
  Blocks bc <> [] ->
  (k < fuel)%nat ->
  HasPrefix (CreateHash [] (candidate k 0) previousHash merkleRoot) "0000" = true ->
  exists bc',
    ChangeBlock fuel bc index newTransaction = Some (bc', true) /\
    VerifyChain bc' = true.
Proof.
  cbv zeta. intros Hv Hne Hk Hvalid.
  assert (Hin : 0 <= len (Blocks bc) - 1 < len (Blocks bc)).
  { unfold len. destruct (Blocks bc); [congruence | cbn [length]; lia]. }
  destruct (FindValidNonce_from_complete _ _ fuel 0 k Hk Hvalid) as [nonce Hs].
  pose proof (ChangeBlock_in_range fuel bc _ newTransaction Hin) as Hcb.
  unfold FindValidNonce in Hcb. rewrite Hs in Hcb.
  eexists. split; [exact Hcb |].
  destruct (ChangeBlock_links _ _ _ _ _ _ Hin Hcb) as (Hlen & Hown & Hothers).
  apply VerifyChain_link_ok. intros j Hj. rewrite Hlen in Hj.
  destruct (Z.eq_dec j (len (Blocks bc) - 1)) as [-> | Hne'].
  - apply Hown. lia.
  - apply Hothers; [lia | assumption | lia |].
    apply (proj1 (VerifyChain_link_ok bc) Hv). lia.
Qed.

Lemma VerifyChain_after_ChangeBlock_last_witness :
  exists bc',
    ChangeBlock 2 ledger2 (len (Blocks ledger2) - 1) "tip113994" = Some (bc', true) /\
    VerifyChain bc' = true.
Proof.
  apply (VerifyChain_after_ChangeBlock_last 2 ledger2 "tip113994" 1).
  - by_evaluation.
  - discriminate.
  - lia.
  - by_evaluation.
Defined.

Lemma rewrite_tail_links (ts : list string) (fuel : nat) (bc bc' : Blockchain) (index : Z) :
  0 <= index ->
  index + len ts = len (Blocks bc) ->
  (forall j : Z, 0 < j < len (Blocks bc) -> j <> index -> link_ok (Blocks bc) j) ->
  rewrite_tail fuel bc index ts = Some bc' ->
  len (Blocks bc') = len (Blocks bc) /\
  forall j : Z, 0 < j < len (Blocks bc') -> link_ok (Blocks bc') j.
Proof.
  revert bc index. induction ts as [| t ts IH]; intros bc index Hpos Hlen Hlinks Hrun.
  - cbn in Hrun. inversion Hrun; subst bc'. split; [reflexivity |].
    intros j Hj. apply Hlinks; [assumption |]. unfold len in *. cbn [length] in Hlen. lia.
  - cbn [rewrite_tail] in Hrun.
    destruct (ChangeBlock fuel bc index t) as [[bc1 ok] |] eqn:Hcb; [| discriminate].
    assert (Hin : 0 <= index < len (Blocks bc)).
    { unfold len in *. cbn [length] in Hlen. lia. }
    destruct (ChangeBlock_links _ _ _ _ _ _ Hin Hcb) as (Hlen1 & Hown & Hothers).
    destruct (IH bc1 (index + 1)) as [Hlen' Hall]; try assumption.
    + lia.
    + rewrite Hlen1. unfold len in *. cbn [length] in Hlen. lia.
    + intros j Hj Hne. rewrite Hlen1 in Hj.
      destruct (Z.eq_dec j index) as [-> | Hne'].
      * apply Hown. lia.
      * apply Hothers; [lia | assumption | assumption |]. now apply Hlinks.
    + split; [congruence | assumption].
Qed.

Lemma rewrite_tail_returns (ts : list string) (fuel : nat) (bc : Blockchain) (index : Z) :
  0 <= index ->
  index + len ts = len (Blocks bc) ->
  nonces_within_fuel fuel bc index ts ->
  exists bc', rewrite_tail fuel bc index ts = Some bc'.
Proof.
  revert bc index. induction ts as [| t ts IH]; intros bc index Hpos Hlen Hfuel.
  - eexists. reflexivity.
  - cbn [nonces_within_fuel] in Hfuel. destruct Hfuel as [(k & Hk & Hvalid) Hnext].
    assert (Hin : 0 <= index < len (Blocks bc)).
    { unfold len in *. cbn [length] in Hlen. lia. }
    destruct (FindValidNonce_from_complete _ _ fuel 0 k Hk Hvalid) as [nonce Hs].
    pose proof (ChangeBlock_in_range fuel bc index t Hin) as Hcb.
    unfold FindValidNonce in Hcb. rewrite Hs in Hcb.
    cbn [rewrite_tail]. rewrite Hcb. apply IH; [lia | | now apply Hnext].
    cbn [with_Blocks Blocks]. unfold len in *. rewrite length_insert.
    cbn [length] in Hlen. lia.
Qed.

(** X17: on a chain whose only broken link, if any, is the one into the
    block at [index], calling [ChangeBlock] once on every block from
    [index] to the last, in that order, returns as soon as the fuel covers
    a valid nonce for each call, and leaves a chain that verifies: this is
    how a chain is made valid again after one of its blocks was
    rewritten. *)
Theorem VerifyChain_after_rewrite_tail (fuel : nat) (bc : Blockchain) (index : Z)
    (ts : list string) :
  0 <= index ->
  index + len ts = len (Blocks bc) ->
  (forall j : Z, 0 < j < len (Blocks bc) -> j <> index ->
     PreviousHash (at_index (Blocks bc) j) = CurrentHash (at_index (Blocks bc) (j - 1))) ->
  nonces_within_fuel fuel bc index ts ->
  exists bc', rewrite_tail fuel bc index ts = Some bc' /\ VerifyChain bc' = true.
Proof.
  intros Hpos Hlen Hlinks Hfuel.
  destruct (rewrite_tail_returns ts fuel bc index Hpos Hlen Hfuel) as [bc' Hrun].
  exists bc'. split; [assumption |]. apply VerifyChain_link_ok.
  exact (proj2 (rewrite_tail_links ts fuel bc bc' index Hpos Hlen Hlinks Hrun)).
Qed.

Example ChangeBlock_ledger3_1 :
  ChangeBlock 2 ledger3_rewritten0 1 "fix1042" = Some (ledger3_rewritten1, true).
Proof. by_evaluation. Qed.

Example ChangeBlock_ledger3_2 :
  ChangeBlock 2 ledger3_rewritten1 (1 + 1) "fix7728" = Some (ledger3_relinked, true).
Proof. by_evaluation. Qed.

Lemma VerifyChain_after_rewrite_tail_witness :
  VerifyChain ledger3_rewritten0 = false /\
  exists bc',
    rewrite_tail 2 ledger3_rewritten0 1 ["fix1042"; "fix7728"] = Some bc' /\
    VerifyChain bc' = true.
Proof.
  split; [by_evaluation |].
  apply (VerifyChain_after_rewrite_tail 2 ledger3_rewritten0 1 ["fix1042"; "fix7728"]).
  - lia.
  - reflexivity.
  - intros j Hj Hne. assert (Hj2 : j = 2) by (unfold len in Hj; cbn in Hj; lia).
    subst j. by_evaluation.
  - split; [exists 1%nat; split; [lia | by_evaluation] |].
    intros bc1 Hcb1. rewrite ChangeBlock_ledger3_1 in Hcb1. inversion Hcb1; subst bc1.
    split; [exists 1%nat; split; [lia | by_evaluation] |].
    intros bc2 Hcb2. exact I.
Defined.

(** ** The display *)

Lemma DisplayBlocks_from_snoc (i : Z) (blocks : list Block) (b : Block) :
  DisplayBlocks_from i (blocks ++ [b])
  = DisplayBlocks_from i blocks +:+ display_block (i + len blocks) b.
Proof.
  revert i. induction blocks as [| c blocks IH]; intros i.
  - cbn [app DisplayBlocks_from]. unfold len. cbn [length].
    rewrite append_empty_r. replace (i + Z.of_nat 0) with i by lia. reflexivity.
  - cbn [app DisplayBlocks_from]. rewrite IH, append_assoc.
    unfold len. cbn [length]. do 3 f_equal. lia.
Qed.

(** X18: [DisplayBlocks] prints nothing for an empty ledger, and after
    [NewBlock] has appended a block it prints what it printed before,
    followed by the section of the new block under the index the ledger
    had as its length. *)
Theorem DisplayBlocks_after_NewBlock (fuel : nat) (bc0 bc bc' : Blockchain)
    (transactions : list string) (out : list string) :
  (Blocks bc0 = [] -> DisplayBlocks bc0 = "") /\
  (NewBlock fuel bc transactions = Some (bc', out) ->
   Blocks bc' <> Blocks bc ->
   DisplayBlocks bc'
   = DisplayBlocks bc +:+ display_block (len (Blocks bc)) (GetRecentBlock bc')).
Proof.
  split.
  - intros Hempty. unfold DisplayBlocks. now rewrite Hempty.
  - intros Hnew Hne.
    destruct (NewBlock_inv _ _ _ _ _ Hnew) as [[-> _] | (nonce & _ & _ & -> & _)];
      [congruence |].
    rewrite GetRecentBlock_last. unfold DisplayBlocks. cbn [with_Blocks Blocks].
    rewrite last_snoc. cbn [default]. now rewrite DisplayBlocks_from_snoc.
Qed.

(** ** The menu loop *)

Lemma read_transactions_length (bc : Blockchain) (sc : scanned) :
  0 <= NumTransactionsPerBlock bc ->
  len (fst (read_transactions bc sc)) = NumTransactionsPerBlock bc.
Proof.
  intros Hpos. unfold read_transactions, len. cbn [fst].
  rewrite length_map, length_seq. lia.
Qed.

(** X19: option 3 of the menu reads exactly [NumTransactionsPerBlock]
    transactions, so with a threshold of at least 1 [NewBlock] never
    rejects the batch: as soon as the fuel covers a nonce that meets the
    difficulty, the iteration appends one block holding the strings read,
    prints no diagnostic and the loop goes on. *)
Theorem main_option3_appends (fuel : nat) (bc : Blockchain) (sc : scanned) (k : nat) :
  let transactions :=
    map (sc_transaction sc) (seq 0 (Z.to_nat (NumTransactionsPerBlock bc))) in
  1 <= NumTransactionsPerBlock bc ->
  (k < fuel)%nat ->
  HasPrefix
    (CreateHash [] (candidate k 0) (CurrentHash (GetRecentBlock bc))
       (CreateMerkleRoot transactions)) "0000" = true ->
  len transactions = NumTransactionsPerBlock bc /\
  exists b bc',
    main_iteration fuel bc 3 sc
    = Some (bc',
            menu_text +:+
            String.concat ""
              (map (fun _ => "Enter transaction: ")
                 (seq 0 (Z.to_nat (NumTransactionsPerBlock bc)))),
            true) /\
    Blocks bc' = Blocks bc ++ [b] /\
    Transaction b = transactions.
Proof.
  cbv zeta. intros Hnum Hk Hvalid.
  pose proof (read_transactions_length bc sc ltac:(lia)) as Hlen.
  unfold read_transactions in Hlen. cbn [fst] in Hlen. split; [exact Hlen |].
  destruct (FindValidNonce_from_complete _ _ fuel 0 k Hk Hvalid) as [nonce Hs].
  set (transactions := map (sc_transaction sc)
                         (seq 0 (Z.to_nat (NumTransactionsPerBlock bc)))) in *.
  assert (Hacc : accepted bc transactions).
  { split; [| lia]. intros Hnil. rewrite Hnil in Hlen. unfold len in Hlen. cbn in Hlen. lia. }
  exists (mined_block bc transactions nonce),
         (with_Blocks bc (Blocks bc ++ [mined_block bc transactions nonce])).
  split; [| split; reflexivity].
  change (main_iteration fuel bc 3 sc)
    with (let '(txs, prompts) := read_transactions bc sc in
          match NewBlock fuel bc txs with
          | None => None
          | Some (bc', lines) =>
              Some (bc', menu_text +:+ prompts +:+ String.concat "" (map Println lines), true)
          end).
  unfold read_transactions. cbv zeta. fold transactions.
  rewrite (NewBlock_accepted _ _ _ Hacc). unfold FindValidNonce. rewrite Hs.
  cbn [map String.concat]. now rewrite append_empty_r.
Qed.

Lemma main_option3_appends_witness :
  len (map (sc_transaction scans_batch1)
         (seq 0 (Z.to_nat (NumTransactionsPerBlock main_ledger))))
  = NumTransactionsPerBlock main_ledger /\
  exists b bc',
    main_iteration 3 main_ledger 3 scans_batch1
    = Some (bc',
            menu_text +:+
            String.concat ""
              (map (fun _ => "Enter transaction: ")
                 (seq 0 (Z.to_nat (NumTransactionsPerBlock main_ledger)))),
            true) /\
    Blocks bc' = Blocks main_ledger ++ [b] /\
    Transaction b
    = map (sc_transaction scans_batch1)
        (seq 0 (Z.to_nat (NumTransactionsPerBlock main_ledger))).
Proof.
  apply (main_option3_appends 3 main_ledger scans_batch1 2).
  - cbn. lia.
  - lia.
  - by_evaluation.
Defined.

Lemma main_iteration_ledger_run (fuel : nat) (bc bc' : Blockchain) (choice : Z)
    (sc : scanned) (out : string) (go : bool) :
  main_iteration fuel bc choice sc = Some (bc', out, go) ->
  ledger_run bc bc'.
Proof.
  intros Hit. unfold main_iteration in Hit.
  repeat match type of Hit with
         | context [match ?c with _ => _ end] => destruct c eqn:?
         end;
    try discriminate; inversion Hit; subst;
    first [ apply ledger_run_start
          | eapply ledger_run_NewBlock; [apply ledger_run_start | eassumption]
          | eapply ledger_run_ChangeBlock; [apply ledger_run_start | eassumption]
          | apply ledger_run_setRange; apply ledger_run_start
          | match goal with
            | E : setNumberOfTransactionsPerBlock ?b ?n = (?b', _) |- _ =>
                replace b' with (fst (setNumberOfTransactionsPerBlock b n))
                  by (now rewrite E);
                apply ledger_run_setNumber; apply ledger_run_start
            end ].
Qed.

Lemma ledger_run_trans (bc0 bc1 bc2 : Blockchain) :
  ledger_run bc0 bc1 -> ledger_run bc1 bc2 -> ledger_run bc0 bc2.
Proof.
  intros H01 H12. induction H12; eauto using ledger_run.
Qed.

Lemma main_loop_ledger_run (fuel : nat) (inputs : list (Z * scanned)) (bc bc' : Blockchain)
    (out : string) :
  main_loop fuel bc inputs = Some (bc', out) -> ledger_run bc bc'.
Proof.
  revert bc out. induction inputs as [| [choice sc] rest IH]; intros bc out Hloop.
  - cbn in Hloop. inversion Hloop. apply ledger_run_start.
  - cbn [main_loop] in Hloop.
    destruct (main_iteration fuel bc choice sc) as [[[bc1 out1] go] |] eqn:Hit;
      [| discriminate].
    apply main_iteration_ledger_run in Hit. destruct go.
    + destruct (main_loop fuel bc1 rest) as [[bc2 out2] |] eqn:Hrest; [| discriminate].
      inversion Hloop; subst. eapply ledger_run_trans; [exact Hit | eauto].
    + inversion Hloop; subst. exact Hit.
Qed.

(** X20: whatever is typed at the menu, the ledger of [main] keeps a
    threshold of at least 1, and every block in it has at least one
    transaction, the Merkle root of its transactions, the [CreateHash] of
    its fields as [CurrentHash] and a nonce that meets the difficulty for
    the hash over the empty transaction list. *)
Theorem main_loop_invariants (fuel : nat) (inputs : list (Z * scanned)) (bc : Blockchain)
    (out : string) :
  main_loop fuel main_ledger inputs = Some (bc, out) ->
  1 <= NumTransactionsPerBlock bc /\
  forall (i : nat) (b : Block), Blocks bc !! i = Some b ->
    Transaction b <> [] /\
    MerkleRoot b = CreateMerkleRoot (Transaction b) /\
    CurrentHash b = CreateHash (Transaction b) (Nonce b) (PreviousHash b) (MerkleRoot b) /\
    HasPrefix (CreateHash [] (Nonce b) (PreviousHash b) (MerkleRoot b)) "0000" = true.
Proof.
  intros Hloop. apply main_loop_ledger_run in Hloop. split.
  - apply (ledger_run_positive main_ledger); [cbn; lia | assumption].
  - assert (Hall : Forall block_consistent (Blocks bc)).
    { apply (ledger_run_consistent main_ledger); [constructor | assumption]. }
    intros i b Hb. exact (proj1 (Forall_lookup _ _) Hall i b Hb).
Qed.

Lemma main_loop_invariants_witness :
  1 <= NumTransactionsPerBlock ledger1 /\
  forall (i : nat) (b : Block), Blocks ledger1 !! i = Some b ->
    Transaction b <> [] /\
    MerkleRoot b = CreateMerkleRoot (Transaction b) /\
    CurrentHash b = CreateHash (Transaction b) (Nonce b) (PreviousHash b) (MerkleRoot b) /\
    HasPrefix (CreateHash [] (Nonce b) (PreviousHash b) (MerkleRoot b)) "0000" = true.
Proof.
  eapply (main_loop_invariants 3
            [(1, scans_batch1); (3, scans_batch1); (6, scans_batch1); (7, scans_batch1)]
            ledger1).
  vm_compute. reflexivity.
Defined.

(** ** What a ledger never loses *)

Lemma step_keeps_transactions (bc1 bc2 : Blockchain) :
  (forall (i : nat) (b1 : Block), Blocks bc1 !! i = Some b1 ->
     exists b2 extra, Blocks bc2 !! i = Some b2 /\
                      Transaction b2 = Transaction b1 ++ extra) ->
  forall bc0 : Blockchain,
  (forall (i : nat) (b0 : Block), Blocks bc0 !! i = Some b0 ->
     exists b1 extra, Blocks bc1 !! i = Some b1 /\
                      Transaction b1 = Transaction b0 ++ extra) ->
  forall (i : nat) (b0 : Block), Blocks bc0 !! i = Some b0 ->
    exists b2 extra, Blocks bc2 !! i = Some b2 /\
                     Transaction b2 = Transaction b0 ++ extra.
Proof.
  intros Hstep bc0 H01 i b0 Hb0.
  destruct (H01 i b0 Hb0) as (b1 & e1 & Hb1 & Ht1).
  destruct (Hstep i b1 Hb1) as (b2 & e2 & Hb2 & Ht2).
  exists b2, (e1 ++ e2). split; [assumption |]. now rewrite Ht2, Ht1, <- app_assoc.
Qed.

Lemma ledger_run_keeps_transactions (bc0 bc : Blockchain) :
  ledger_run bc0 bc ->
  forall (i : nat) (b0 : Block), Blocks bc0 !! i = Some b0 ->
    exists b extra, Blocks bc !! i = Some b /\ Transaction b = Transaction b0 ++ extra.
Proof.
  induction 1
    as [| bc1 bc2 fuel txs out _ IH Hnew | bc1 bc2 fuel index t ok _ IH Hcb
        | bc1 n _ IH | bc1 mn mx _ IH].
  - intros i b0 Hb0. exists b0, []. split; [assumption | now rewrite app_nil_r].
  - apply (step_keeps_transactions bc1); [| exact IH]. intros i b1 Hb1.
    exists b1, []. split; [| now rewrite app_nil_r].
    destruct (NewBlock_inv _ _ _ _ _ Hnew) as [[-> _] | (nonce & _ & _ & -> & _)];
      [assumption |].
    cbn [with_Blocks Blocks]. now apply lookup_app_l_Some.
  - apply (step_keeps_transactions bc1); [| exact IH]. intros i b1 Hb1.
    destruct (ChangeBlock_inv _ _ _ _ _ _ Hcb)
      as [(-> & _ & _) | (Hin & _ & nonce & _ & ->)].
    + exists b1, []. split; [assumption | now rewrite app_nil_r].
    + cbn [with_Blocks Blocks].
      assert (Hlt : (i < length (Blocks bc1))%nat) by (eapply lookup_lt_Some; eauto).
      destruct (decide (i = Z.to_nat index)) as [-> | Hne].
      * exists (rebuilt_block bc1 index t nonce), [t].
        split; [now apply list_lookup_insert_eq |].
        unfold rebuilt_block. cbn [Transaction]. unfold at_index. now rewrite Hb1.
      * exists b1, []. split; [| now rewrite app_nil_r].
        now rewrite list_lookup_insert_ne by congruence.
  - apply (step_keeps_transactions bc1); [| exact IH]. intros i b1 Hb1.
    exists b1, []. split; [| now rewrite app_nil_r]. now rewrite setNumber_Blocks.
  - exact IH.
Qed.

(** X21: no sequence of operations removes a block or a transaction: a
    block that is in the ledger stays at its index, and its transaction
    list can only get longer at the end. *)
Theorem ledger_never_loses_transactions (bc0 bc : Blockchain) :
  ledger_run bc0 bc ->
  (length (Blocks bc0) <= length (Blocks bc))%nat /\
  forall (i : nat) (b0 : Block), Blocks bc0 !! i = Some b0 ->
    exists b extra, Blocks bc !! i = Some b /\ Transaction b = Transaction b0 ++ extra.
Proof.
  intros Hrun. pose proof (ledger_run_keeps_transactions bc0 bc Hrun) as Hkeep.
  split; [| exact Hkeep].
  destruct (Nat.le_gt_cases (length (Blocks bc0)) (length (Blocks bc))) as [Hle | Hgt];
    [assumption |].
  destruct (lookup_lt_is_Some_2 (Blocks bc0) (length (Blocks bc))) as [b0 Hb0]; [lia |].
  destruct (Hkeep _ _ Hb0) as (b & _ & Hb & _).
  apply lookup_lt_Some in Hb. lia.
Qed.

Lemma ledger2_to_relinked : ledger_run ledger2 ledger2_relinked.
Proof.
  apply (ledger_run_ChangeBlock ledger2 ledger2_rewritten0 ledger2_relinked
           2 1 "fix1042" true).
  - apply (ledger_run_ChangeBlock ledger2 ledger2 ledger2_rewritten0 2 0 "fee62490" true).
    + apply ledger_run_start.
    + exact ChangeBlock_ledger2_0.
  - by_evaluation.
Defined.

Lemma ledger_never_loses_transactions_witness :
  (length (Blocks ledger2) <= length (Blocks ledger2_relinked))%nat /\
  forall (i : nat) (b0 : Block), Blocks ledger2 !! i = Some b0 ->
    exists b extra, Blocks ledger2_relinked !! i = Some b /\
                    Transaction b = Transaction b0 ++ extra.
Proof. exact (ledger_never_loses_transactions ledger2 ledger2_relinked ledger2_to_relinked). Defined.

(** ** The link a rewrite leaves behind *)








(** The two blocks around the empty one of [ledger_void] are the ones
    [NewBlock] appends, and the fields of the empty one are the ones the
    code computes for no transaction after the first block. *)
Example NewBlock_batch_g :
  NewBlock 1 main_ledger batch_g
  = Some (mkBlockchain [block_g] 5 "0000" "00000", []).
Proof. by_evaluation. Qed.

Example NewBlock_batch_k :
  NewBlock 3 (mkBlockchain [block_g; block_void] 5 "0000" "00000") batch_k
  = Some (ledger_void, []).
Proof. by_evaluation. Qed.

Example block_void_fields :
  MerkleRoot block_void = CreateMerkleRoot [] /\
  FindValidNonce 16 (CreateMerkleRoot []) (CurrentHash block_g) = Some (Nonce block_void) /\
  CurrentHash block_void
  = CreateHash [] (Nonce block_void) (PreviousHash block_void) (MerkleRoot block_void).
Proof. repeat split; by_evaluation. Qed.

